(** * LevelDB block reader (table/block.cc): a shallow embedding

    The block buffer is a [list byte]; pointers into it are byte offsets
    ([Z]) from its start.  Unsigned 32-bit arithmetic is written with its
    wrap-around ([wrap32]).  A call that has no defined result in the
    source (a failed [assert], the difference of pointers into unrelated
    objects, key bytes copied from past the end of the buffer) or a loop
    bound that is used up yields [None]. *)

From Stdlib Require Import ZArith Bool Lia String List.
From Stdlib.Strings Require Import Byte.
Import ListNotations.
Local Open Scope Z_scope.

(** ** Machine integers and raw memory *)

Definition wrap32 (z : Z) : Z := z mod 2 ^ 32.

(** The unsigned byte stored at offset [i]. *)
Definition byte_at (data : list byte) (i : Z) : Z :=
  Z.of_N (Byte.to_N (nth (Z.to_nat i) data x00)).

(** The bytes [off, off + len) of the buffer, as far as the buffer goes. *)
Definition slice (data : list byte) (off len : Z) : list byte :=
  firstn (Z.to_nat len) (skipn (Z.to_nat off) data).

(** Modelled from the spec: [DecodeFixed32] (util/coding.h is not part of
    the sources at hand): "all multi-byte integers in the block trailer are
    4-byte little-endian unsigned integers". *)
Definition DecodeFixed32 (data : list byte) (off : Z) : Z :=
  Z.lor (byte_at data off)
    (Z.lor (Z.shiftl (byte_at data (off + 1)) 8)
       (Z.lor (Z.shiftl (byte_at data (off + 2)) 16)
          (Z.shiftl (byte_at data (off + 3)) 24))).

(** Modelled from the spec: [GetVarint32Ptr] (util/coding.cc is not part of
    the sources at hand): "standard base-128 variable-length
    unsigned-integer encoding (7 data bits per byte, continuation bit set
    on all but the final byte, least-significant group first)", taking
    [(pointer, limit)] and yielding [(new_pointer, value)] or failure.  A
    32-bit value takes at most five groups. *)
Fixpoint GetVarint32PtrFallback (groups : nat) (data : list byte)
    (p limit shift result : Z) : option (Z * Z) :=
  match groups with
  | O => None
  | S groups' =>
      if p <? limit then
        let byte := byte_at data p in
        if Z.testbit byte 7 then
          GetVarint32PtrFallback groups' data (p + 1) limit (shift + 7)
            (Z.lor result (Z.shiftl (Z.land byte 127) shift))
        else Some (p + 1, wrap32 (Z.lor result (Z.shiftl byte shift)))
      else None
  end.

Definition GetVarint32Ptr (data : list byte) (p limit : Z) : option (Z * Z) :=
  GetVarint32PtrFallback 5 data p limit 0 0.

(** ** DecodeEntry *)

(** What [DecodeEntry] hands back: the returned pointer and the three
    out-parameters. *)
Record Decoded := mkDecoded
  { key_ptr : Z; shared : Z; non_shared : Z; value_length : Z }.

(** The three length fields, before the final length check. *)
Definition DecodeEntry_lengths (data : list byte) (p limit : Z) : option Decoded :=
  let shared := byte_at data p in
  let non_shared := byte_at data (p + 1) in
  let value_length := byte_at data (p + 2) in
  if Z.lor (Z.lor shared non_shared) value_length <? 128 then
    Some (mkDecoded (p + 3) shared non_shared value_length)
  else
    match GetVarint32Ptr data p limit with
    | None => None
    | Some (p1, shared) =>
        match GetVarint32Ptr data p1 limit with
        | None => None
        | Some (p2, non_shared) =>
            match GetVarint32Ptr data p2 limit with
            | None => None
            | Some (p3, value_length) =>
                Some (mkDecoded p3 shared non_shared value_length)
            end
        end
    end.

Definition DecodeEntry (data : list byte) (p limit : Z) : option Decoded :=
  if limit - p <? 3 then None
  else
    match DecodeEntry_lengths data p limit with
    | None => None
    | Some d =>
        if wrap32 (limit - key_ptr d) <? wrap32 (non_shared d + value_length d)
        then None
        else Some d
    end.

(** The specification's reading of [DecodeEntry]: the single-byte fast path
    when at least three bytes are left and each of them is below 128,
    three varints otherwise; then the length check, with [sum] the way the
    two lengths are added. *)
Definition DecodeEntry_worded (sum : Z -> Z -> Z) (data : list byte)
    (p limit : Z) : option Decoded :=
  let lengths :=
    if (3 <=? limit - p) && (byte_at data p <? 128)
       && (byte_at data (p + 1) <? 128) && (byte_at data (p + 2) <? 128)
    then
      Some (mkDecoded (p + 3) (byte_at data p) (byte_at data (p + 1))
              (byte_at data (p + 2)))
    else
      match GetVarint32Ptr data p limit with
      | None => None
      | Some (p1, shared) =>
          match GetVarint32Ptr data p1 limit with
          | None => None
          | Some (p2, non_shared) =>
              match GetVarint32Ptr data p2 limit with
              | None => None
              | Some (p3, value_length) =>
                  Some (mkDecoded p3 shared non_shared value_length)
              end
          end
      end in
  match lengths with
  | None => None
  | Some d =>
      if limit - key_ptr d <? sum (non_shared d) (value_length d) then None
      else Some d
  end.

(** ** Status and slices *)

Inductive Status :=
| OK
| Corruption (msg : string).

(** A [Slice] is a pointer and a length.  [SliceAt off size] points into the
    block; [SliceEmpty] is what [Slice::clear()] leaves: the empty string
    literal, which is not part of the block. *)
Inductive Slice :=
| SliceAt (off size : Z)
| SliceEmpty.

Definition Comparator := list byte -> list byte -> Z.

(** ** Block::Iter *)

Module Iter.

Record t := mk
  { comparator_ : Comparator;
    data_ : list byte;
    restarts_ : Z;
    num_restarts_ : Z;
    current_ : Z;
    restart_index_ : Z;
    key_ : list byte;
    value_ : Slice;
    status_ : Status }.

Definition Compare (it : t) (a b : list byte) : Z := comparator_ it a b.

Definition NextEntryOffset (it : t) : option Z :=
  match value_ it with
  | SliceAt off size => Some (wrap32 (off + size))
  | SliceEmpty => None
  end.

(** The source asserts [index < num_restarts_]. *)
Definition GetRestartPoint (it : t) (index : Z) : Z :=
  DecodeFixed32 (data_ it) (restarts_ it + index * 4).

Definition SeekToRestartPoint (index : Z) (it : t) : t :=
  let offset := GetRestartPoint it index in
  mk (comparator_ it) (data_ it) (restarts_ it) (num_restarts_ it)
     (current_ it) index [] (SliceAt offset 0) (status_ it).

(** The constructor asserts [num_restarts_ > 0]. *)
Definition new (comparator : Comparator) (data : list byte)
    (restarts num_restarts : Z) : option t :=
  if 0 <? num_restarts then
    Some (mk comparator data restarts num_restarts restarts num_restarts
             [] SliceEmpty OK)
  else None.

Definition Valid (it : t) : bool := current_ it <? restarts_ it.

Definition status (it : t) : Status := status_ it.

Definition key (it : t) : option (list byte) :=
  if Valid it then Some (key_ it) else None.

Definition value (it : t) : option Slice :=
  if Valid it then Some (value_ it) else None.

Definition CorruptionError (it : t) : t :=
  mk (comparator_ it) (data_ it) (restarts_ it) (num_restarts_ it)
     (restarts_ it) (num_restarts_ it) [] SliceEmpty
     (Corruption "bad entry in block").

(** Mark as invalid, as [ParseNextKey] and [Prev] do when no entry is left. *)
Definition mark_invalid (it : t) : t :=
  mk (comparator_ it) (data_ it) (restarts_ it) (num_restarts_ it)
     (restarts_ it) (num_restarts_ it) (key_ it) (value_ it) (status_ it).

(** The loop at the end of [ParseNextKey]:
    [while (restart_index_ + 1 < num_restarts_ &&
            GetRestartPoint(restart_index_ + 1) < current_) ++restart_index_;] *)
Fixpoint ParseNextKey_skip (fuel : nat) (it : t) (current restart_index : Z) : Z :=
  match fuel with
  | O => restart_index
  | S fuel' =>
      if (wrap32 (restart_index + 1) <? num_restarts_ it)
         && (GetRestartPoint it (wrap32 (restart_index + 1)) <? current)
      then ParseNextKey_skip fuel' it current (wrap32 (restart_index + 1))
      else restart_index
  end.

(** [key_.append(p, non_shared)] copies the [non_shared] bytes at [p]
    whatever the buffer holds: where they run past the end of the buffer
    the call has no defined result. *)
Definition ParseNextKey (it : t) : option (bool * t) :=
  match NextEntryOffset it with
  | None => None
  | Some current =>
      if restarts_ it <=? current then
        Some (false, mark_invalid it)
      else
        match DecodeEntry (data_ it) current (restarts_ it) with
        | None => Some (false, CorruptionError it)
        | Some d =>
            if Z.of_nat (length (key_ it)) <? shared d then
              Some (false, CorruptionError it)
            else if Z.of_nat (length (data_ it)) <? key_ptr d + non_shared d then
              None
            else
              let key := firstn (Z.to_nat (shared d)) (key_ it)
                         ++ slice (data_ it) (key_ptr d) (non_shared d) in
              let value := SliceAt (key_ptr d + non_shared d) (value_length d) in
              let restart_index :=
                ParseNextKey_skip (S (Z.to_nat (num_restarts_ it))) it current
                  (restart_index_ it) in
              Some (true,
                    mk (comparator_ it) (data_ it) (restarts_ it)
                       (num_restarts_ it) current restart_index key value
                       (status_ it))
        end
  end.

Definition Next (it : t) : option t :=
  if Valid it then
    match ParseNextKey it with
    | None => None
    | Some (_, it') => Some it'
    end
  else None.

(** [while (ParseNextKey() && NextEntryOffset() < bound) {}]: the loop of
    [SeekToLast] (bound [restarts_]) and the [do ... while] of [Prev]
    (bound [original]). *)
Fixpoint parse_while (fuel : nat) (bound : Z) (it : t) : option t :=
  match fuel with
  | O => None
  | S fuel' =>
      match ParseNextKey it with
      | None => None
      | Some (false, it') => Some it'
      | Some (true, it') =>
          match NextEntryOffset it' with
          | None => None
          | Some next =>
              if next <? bound then parse_while fuel' bound it' else Some it'
          end
      end
  end.

(** Every parsed entry is at least three bytes long and starts before
    [restarts_], which bounds the number of rounds of the parsing loops. *)
Definition parse_fuel (it : t) : nat := S (Z.to_nat (restarts_ it)).

(** The first loop of [Prev]: scan backwards to a restart point before
    [original]; [None] is the "No more entries" exit. *)
Fixpoint Prev_scan (it : t) (original : Z) (restart_index : nat) : option Z :=
  if original <=? GetRestartPoint it (Z.of_nat restart_index) then
    match restart_index with
    | O => None
    | S restart_index' => Prev_scan it original restart_index'
    end
  else Some (Z.of_nat restart_index).

Definition Prev (it : t) : option t :=
  if Valid it then
    let original := current_ it in
    match Prev_scan it original (Z.to_nat (restart_index_ it)) with
    | None => Some (mark_invalid it)
    | Some restart_index =>
        parse_while (parse_fuel it) original (SeekToRestartPoint restart_index it)
    end
  else None.

(** The calls [Seek] makes, in order. *)
Inductive event :=
| EvProbe (mid : Z)                 (* GetRestartPoint(mid), then DecodeEntry there *)
| EvCompare (a b : list byte)       (* Compare(a, b) *)
| EvSeekToRestartPoint (index : Z)
| EvParseNextKey.

Inductive search_result :=
| Collapsed (left : Z)
| BadRestart
| SearchFuel.

(** The binary search of [Seek].  [mid_key] is a [Slice], not a copy: the
    comparator is handed the bytes of it that the buffer holds. *)
Fixpoint Seek_search (fuel : nat) (it : t) (target : list byte)
    (left right : Z) : list event * search_result :=
  if left <? right then
    match fuel with
    | O => ([], SearchFuel)
    | S fuel' =>
        let mid := wrap32 (left + right + 1) / 2 in
        let region_offset := GetRestartPoint it mid in
        match DecodeEntry (data_ it) region_offset (restarts_ it) with
        | None => ([EvProbe mid], BadRestart)
        | Some d =>
            if negb (shared d =? 0) then ([EvProbe mid], BadRestart)
            else
              let mid_key := slice (data_ it) (key_ptr d) (non_shared d) in
              let rest :=
                if Compare it mid_key target <? 0
                then Seek_search fuel' it target mid right
                else Seek_search fuel' it target left (wrap32 (mid - 1)) in
              (EvProbe mid :: EvCompare mid_key target :: fst rest, snd rest)
        end
    end
  else ([], Collapsed left).

(** The linear search of [Seek]. *)
Fixpoint Seek_scan (fuel : nat) (target : list byte) (it : t)
    : list event * option t :=
  match fuel with
  | O => ([], None)
  | S fuel' =>
      match ParseNextKey it with
      | None => ([EvParseNextKey], None)
      | Some (false, it') => ([EvParseNextKey], Some it')
      | Some (true, it') =>
          if 0 <=? Compare it' (key_ it') target then
            ([EvParseNextKey; EvCompare (key_ it') target], Some it')
          else
            let rest := Seek_scan fuel' target it' in
            (EvParseNextKey :: EvCompare (key_ it') target :: fst rest, snd rest)
      end
  end.

Definition Seek_traced (target : list byte) (it : t) : list event * option t :=
  let left := 0 in
  let right := wrap32 (num_restarts_ it - 1) in
  let search := Seek_search (Z.to_nat (num_restarts_ it)) it target left right in
  match snd search with
  | SearchFuel => (fst search, None)
  | BadRestart => (fst search, Some (CorruptionError it))
  | Collapsed index =>
      let scan := Seek_scan (parse_fuel it) target (SeekToRestartPoint index it) in
      (fst search ++ EvSeekToRestartPoint index :: fst scan, snd scan)
  end.

Definition Seek (target : list byte) (it : t) : option t :=
  snd (Seek_traced target it).

Definition SeekToFirst (it : t) : option t :=
  match ParseNextKey (SeekToRestartPoint 0 it) with
  | None => None
  | Some (_, it') => Some it'
  end.

Definition SeekToLast (it : t) : option t :=
  parse_while (parse_fuel it) (restarts_ it)
    (SeekToRestartPoint (wrap32 (num_restarts_ it - 1)) it).

(** Navigation operations, for sequences of calls. *)
Inductive nav :=
| NavNext
| NavPrev
| NavSeek (target : list byte)
| NavSeekToFirst
| NavSeekToLast.

Definition step (op : nav) (it : t) : option t :=
  match op with
  | NavNext => Next it
  | NavPrev => Prev it
  | NavSeek target => Seek target it
  | NavSeekToFirst => SeekToFirst it
  | NavSeekToLast => SeekToLast it
  end.

Fixpoint run (ops : list nav) (it : t) : option t :=
  match ops with
  | [] => Some it
  | op :: ops' =>
      match step op it with
      | None => None
      | Some it' => run ops' it'
      end
  end.

End Iter.

(** ** The iterators a block hands out *)

(** Modelled from the spec: the iterators of [NewErrorIterator] and
    [NewEmptyIterator] (table/iterator.cc is not part of the sources at
    hand), as "three variants of one capability set": the error iterator
    "immediately reports" its status "and nothing else (it is never
    positioned at a valid entry)"; the empty iterator is "always empty
    (every navigation call leaves it invalid, with no error)". *)
Inductive Iterator :=
| ErrorIterator (s : Status)
| EmptyIterator
| BlockIter (it : Iter.t).

Definition NewErrorIterator (s : Status) : Iterator := ErrorIterator s.
Definition NewEmptyIterator : Iterator := EmptyIterator.

Definition Iterator_Valid (i : Iterator) : bool :=
  match i with
  | ErrorIterator _ => false
  | EmptyIterator => false
  | BlockIter it => Iter.Valid it
  end.

Definition Iterator_status (i : Iterator) : Status :=
  match i with
  | ErrorIterator s => s
  | EmptyIterator => OK
  | BlockIter it => Iter.status it
  end.

(** [Next] and [Prev] have the precondition [Valid], which the error and
    the empty iterator never meet. *)
Definition Iterator_step (op : Iter.nav) (i : Iterator) : option Iterator :=
  match i with
  | BlockIter it => option_map BlockIter (Iter.step op it)
  | _ =>
      match op with
      | Iter.NavNext | Iter.NavPrev => None
      | _ => Some i
      end
  end.

Fixpoint Iterator_run (ops : list Iter.nav) (i : Iterator) : option Iterator :=
  match ops with
  | [] => Some i
  | op :: ops' =>
      match Iterator_step op i with
      | None => None
      | Some i' => Iterator_run ops' i'
      end
  end.

(** ** Block *)

Module Block.

(** [BlockContents] (table/format.h): the bytes and the ownership flag. *)
Record BlockContents := mkContents
  { data : list byte; heap_allocated : bool }.

(** [restart_offset_] is left uninitialised ([None]) on the error paths of
    the constructor. *)
Record t := mk
  { data_ : list byte;
    size_ : Z;
    restart_offset_ : option Z;
    owned_ : bool }.

(** The source asserts [size_ >= sizeof(uint32_t)]. *)
Definition NumRestarts (data_ : list byte) (size_ : Z) : Z :=
  DecodeFixed32 data_ (size_ - 4).

(** [restart_offset_] is a 32-bit field (it is what [Iter] takes as
    [uint32_t restarts]); [1 + NumRestarts()] is 32-bit arithmetic, the rest
    is [size_t] arithmetic, of which the conversion keeps the low 32 bits. *)
Definition new (contents : BlockContents) : t :=
  let data_ := data contents in
  let size_ := Z.of_nat (length data_) in
  let owned_ := heap_allocated contents in
  if size_ <? 4 then mk data_ 0 None owned_
  else
    let max_restarts_allowed := (size_ - 4) / 4 in
    if max_restarts_allowed <? NumRestarts data_ size_ then
      mk data_ 0 None owned_
    else
      mk data_ size_
         (Some (wrap32 (size_ - wrap32 (1 + NumRestarts data_ size_) * 4)))
         owned_.

Definition NewIterator (b : t) (cmp : Comparator) : option Iterator :=
  if size_ b <? 4 then
    Some (NewErrorIterator (Corruption "bad block contents"))
  else
    let num_restarts := NumRestarts (data_ b) (size_ b) in
    if num_restarts =? 0 then Some NewEmptyIterator
    else
      match restart_offset_ b with
      | None => None
      | Some restart_offset =>
          option_map BlockIter
            (Iter.new cmp (data_ b) restart_offset num_restarts)
      end.

End Block.

(** * Specifications *)

(** ** Comparators *)

(** What [Seek] needs of the comparator: it is reflexive and its strict
    part is transitive. *)
Record ComparatorOrder (cmp : Comparator) : Prop :=
  { cmp_refl : forall a, cmp a a = 0;
    cmp_trans : forall a b c, cmp a b < 0 -> cmp b c < 0 -> cmp a c < 0 }.

(** The bytewise comparator: bytes compared as unsigned, a proper prefix
    first. *)
Fixpoint bytewise_compare (a b : list byte) : Z :=
  match a, b with
  | [], [] => 0
  | [], _ :: _ => -1
  | _ :: _, [] => 1
  | x :: a', y :: b' =>
      let c := Z.of_N (Byte.to_N x) - Z.of_N (Byte.to_N y) in
      if c =? 0 then bytewise_compare a' b' else c
  end.

(** ** The entries of a block *)

(** An entry as it sits in the block: where it starts, its decoded header
    and its reconstructed key. *)
Record Entry := mkEntry
  { e_off : Z; e_hdr : Decoded; e_key : list byte }.

Definition e_value (e : Entry) : Slice :=
  SliceAt (key_ptr (e_hdr e) + non_shared (e_hdr e)) (value_length (e_hdr e)).

Definition e_next (e : Entry) : Z :=
  key_ptr (e_hdr e) + non_shared (e_hdr e) + value_length (e_hdr e).

(** The entries from offset [off] up to [limit], each key rebuilt from the
    one before; [None] unless every entry decodes, has its prefix covered
    by the previous key, lies before [limit], and the last one ends at
    [limit]. *)
Fixpoint entries_from (fuel : nat) (data : list byte) (limit off : Z)
    (prev : list byte) : option (list Entry) :=
  match fuel with
  | O => None
  | S fuel' =>
      if off =? limit then Some []
      else if limit <? off then None
      else
        match DecodeEntry data off limit with
        | None => None
        | Some d =>
            if (Z.of_nat (length prev) <? shared d)
               || (limit - key_ptr d <? non_shared d + value_length d)
            then None
            else
              let key := firstn (Z.to_nat (shared d)) prev
                         ++ slice data (key_ptr d) (non_shared d) in
              match entries_from fuel' data limit
                      (key_ptr d + non_shared d + value_length d) key with
              | None => None
              | Some rest => Some (mkEntry off d key :: rest)
              end
        end
  end.

Definition block_entries (data : list byte) (restarts : Z) : option (list Entry) :=
  entries_from (S (Z.to_nat restarts)) data restarts 0 [].

(** [chain data limit off prev es]: [es] are the entries that lie one after
    the other from [off] to [limit], the first one front-coded against
    [prev]. *)
Inductive chain (data : list byte) (limit : Z)
  : Z -> list byte -> list Entry -> Prop :=
| chain_end prev : chain data limit limit prev []
| chain_entry off prev d rest :
    off < limit ->
    DecodeEntry data off limit = Some d ->
    shared d <= Z.of_nat (length prev) ->
    non_shared d + value_length d <= limit - key_ptr d ->
    chain data limit (key_ptr d + non_shared d + value_length d)
      (firstn (Z.to_nat (shared d)) prev ++ slice data (key_ptr d) (non_shared d))
      rest ->
    chain data limit off prev
      (mkEntry off d
         (firstn (Z.to_nat (shared d)) prev
          ++ slice data (key_ptr d) (non_shared d))
       :: rest).

(** Where a reader stands after the entries [l]: the next offset and the
    key to decode against. *)
Definition after (off : Z) (prev : list byte) (l : list Entry) : Z * list byte :=
  fold_left (fun _ e => (e_next e, e_key e)) l (off, prev).

Definition restart_point (data : list byte) (restarts index : Z) : Z :=
  DecodeFixed32 data (restarts + index * 4).

(** A well-formed block with entries [es]: the restart array follows the
    entries and is followed by its count; the restart points increase from
    offset 0, and each is the start of an entry that stores its key in
    full. *)
Record WellFormed (data : list byte) (restarts num_restarts : Z)
    (es : list Entry) : Prop :=
  { wf_restarts : 0 <= restarts;
    wf_num : 0 < num_restarts;
    wf_size : restarts + 4 * (num_restarts + 1) = Z.of_nat (length data);
    wf_size32 : Z.of_nat (length data) < 2 ^ 32;
    wf_entries : block_entries data restarts = Some es;
    wf_first : restart_point data restarts 0 = 0;
    wf_increasing : forall j, 0 <= j -> j + 1 < num_restarts ->
        restart_point data restarts j < restart_point data restarts (j + 1);
    wf_restart_entry : forall j, 0 < j < num_restarts ->
        exists e, In e es /\ e_off e = restart_point data restarts j
                  /\ shared (e_hdr e) = 0 }.

(** The keys increase strictly under the comparator. *)
Fixpoint sorted_keys (cmp : Comparator) (es : list Entry) : Prop :=
  match es with
  | [] => True
  | e :: rest =>
      (forall e', In e' rest -> cmp (e_key e) (e_key e') < 0)
      /\ sorted_keys cmp rest
  end.

(** Restart point [j] is the first one, or the key of its entry is below
    the target: what the binary search of [Seek] keeps true of [left]. *)
Definition below_target (cmp : Comparator) (data : list byte) (limit : Z)
    (es : list Entry) (target : list byte) (j : Z) : Prop :=
  j = 0
  \/ exists e, In e es /\ e_off e = restart_point data limit j
               /\ cmp (e_key e) target < 0.

(** ** Cursors over a block *)

(** The cursor is over the block [(data, restarts, num_restarts)]. *)
Definition on_block (data : list byte) (restarts num_restarts : Z)
    (it : Iter.t) : Prop :=
  Iter.data_ it = data
  /\ Iter.restarts_ it = restarts
  /\ Iter.num_restarts_ it = num_restarts.

(** Two cursors over the same block with the same comparator. *)
Definition same_block (it it' : Iter.t) : Prop :=
  Iter.comparator_ it' = Iter.comparator_ it
  /\ Iter.data_ it' = Iter.data_ it
  /\ Iter.restarts_ it' = Iter.restarts_ it
  /\ Iter.num_restarts_ it' = Iter.num_restarts_ it.

(** The ranges the cursor's constants have: [restarts_] is a 32-bit offset
    and the restart array fits before the end of a buffer it can address. *)
Definition in_range (it : Iter.t) : Prop :=
  0 <= Iter.restarts_ it < 2 ^ 32
  /\ 0 < Iter.num_restarts_ it < 2 ^ 31.

(** The cursor sits on entry [e]. *)
Definition at_entry (it : Iter.t) (e : Entry) : Prop :=
  Iter.current_ it = e_off e
  /\ Iter.key_ it = e_key e
  /\ Iter.value_ it = e_value e.

(** [restart_index_] is a restart point, and the next restart point is not
    before the current entry. *)
Definition restart_index_ok (it : Iter.t) : Prop :=
  0 <= Iter.restart_index_ it < Iter.num_restarts_ it
  /\ (Iter.restart_index_ it + 1 < Iter.num_restarts_ it ->
      Iter.current_ it
      <= Iter.GetRestartPoint it (Iter.restart_index_ it + 1)).

(** The cursor sits on entry [e] of the block [(data, restarts,
    num_restarts)], with a usable [restart_index_]. *)
Definition positioned (data : list byte) (restarts num_restarts : Z)
    (it : Iter.t) (e : Entry) : Prop :=
  on_block data restarts num_restarts it
  /\ at_entry it e
  /\ restart_index_ok it.

(** The status [CorruptionError] records. *)
Definition bad_entry : Status := Corruption "bad entry in block".

(** The entry at restart point [mid] does not decode, or shares a prefix:
    the condition on which the binary search of [Seek] gives up. *)
Definition bad_restart (it : Iter.t) (mid : Z) : bool :=
  match DecodeEntry (Iter.data_ it) (Iter.GetRestartPoint it mid)
          (Iter.restarts_ it) with
  | None => true
  | Some d => negb (shared d =? 0)
  end.

(** The entries lie inside the buffer, and no header that [DecodeEntry]
    accepts before [restarts] has lengths that add up to 2^32 or more: none
    passes the length check by wrap-around. *)
Definition lengths_fit (data : list byte) (restarts : Z) : Prop :=
  restarts <= Z.of_nat (length data)
  /\ forall p d, 0 <= p -> DecodeEntry data p restarts = Some d ->
       non_shared d + value_length d < 2 ^ 32.


(** What every cursor a caller can reach satisfies: its constants are in
    range; a valid cursor has its [restart_index_] among the restart
    points, with the next restart point not before the current entry, and
    [NextEntryOffset], the end of its value as a 32-bit offset, lies after
    the start of the entry and not after the restart array; an invalid
    cursor has [current_ = restarts_] and
    [restart_index_ = num_restarts_]. *)
Definition cursor_invariant (it : Iter.t) : Prop :=
  in_range it
  /\ (Iter.Valid it = true ->
      0 <= Iter.current_ it
      /\ restart_index_ok it
      /\ exists next,
           Iter.NextEntryOffset it = Some next
           /\ Iter.current_ it + 3 <= next <= Iter.restarts_ it)
  /\ (Iter.Valid it = false ->
      Iter.current_ it = Iter.restarts_ it
      /\ Iter.restart_index_ it = Iter.num_restarts_ it).


(** How many restart points a trace of [Seek] probes. *)
Definition count_probes (trace : list Iter.event) : nat :=
  length (filter (fun ev => match ev with Iter.EvProbe _ => true | _ => false end)
            trace).

(** ** Walking a block *)

Definition Slice_bytes (data : list byte) (s : Slice) : list byte :=
  match s with
  | SliceAt off size => slice data off size
  | SliceEmpty => []
  end.

(** The (key, value) pair under a cursor. *)
Definition current_pair (it : Iter.t) : list byte * list byte :=
  (Iter.key_ it, Slice_bytes (Iter.data_ it) (Iter.value_ it)).

(** The (key, value) pair of an entry. *)
Definition entry_pair (data : list byte) (e : Entry) : list byte * list byte :=
  (e_key e, Slice_bytes data (e_value e)).

(** Collect the pair under the cursor and move on with [move], until the
    cursor is invalid; returns the pairs in the order visited and the final
    cursor. *)
Fixpoint collect (move : Iter.t -> option Iter.t) (fuel : nat) (it : Iter.t)
    : option (list (list byte * list byte) * Iter.t) :=
  if Iter.Valid it then
    match fuel with
    | O => None
    | S fuel' =>
        match move it with
        | None => None
        | Some it' =>
            match collect move fuel' it' with
            | None => None
            | Some (pairs, final) => Some (current_pair it :: pairs, final)
            end
        end
    end
  else Some ([], it).

Definition collect_forward (it : Iter.t)
    : option (list (list byte * list byte) * Iter.t) :=
  match Iter.SeekToFirst it with
  | None => None
  | Some it' => collect Iter.Next (Iter.parse_fuel it) it'
  end.

Definition collect_backward (it : Iter.t)
    : option (list (list byte * list byte) * Iter.t) :=
  match Iter.SeekToLast it with
  | None => None
  | Some it' => collect Iter.Prev (Iter.parse_fuel it) it'
  end.

(** ** Sample blocks and cursors *)

Definition bytes_of (l : list Z) : list byte :=
  map (fun z => match Byte.of_N (Z.to_N z) with Some b => b | None => x00 end) l.

(** "abc" -> "v1", "abd" -> "v2" (shared 2, delta "d"), one restart point. *)
Definition block_abc : list byte :=
  bytes_of [0; 3; 2; 97; 98; 99; 118; 49;   2; 1; 2; 100; 118; 50;
            0; 0; 0; 0;   1; 0; 0; 0].

(** "a" -> "1", "ab" -> "2", "b" -> "3", "bc" -> "4"; restart points at
    offsets 0 and 10. *)
Definition block_two_runs : list byte :=
  bytes_of [0; 1; 1; 97; 49;   1; 1; 1; 98; 50;
            0; 1; 1; 98; 51;   1; 1; 1; 99; 52;
            0; 0; 0; 0;   10; 0; 0; 0;   2; 0; 0; 0].

(** The entries of [block_two_runs]. *)
Definition entries_two_runs : list Entry :=
  [ mkEntry 0 (mkDecoded 3 0 1 1) (bytes_of [97]);
    mkEntry 5 (mkDecoded 8 1 1 1) (bytes_of [97; 98]);
    mkEntry 10 (mkDecoded 13 0 1 1) (bytes_of [98]);
    mkEntry 15 (mkDecoded 18 1 1 1) (bytes_of [98; 99]) ].

(** The entries of [block_two_runs], with the second restart point moved to
    offset 5, an entry that shares a prefix. *)
Definition block_bad_restart : list byte :=
  bytes_of [0; 1; 1; 97; 49;   1; 1; 1; 98; 50;
            0; 1; 1; 98; 51;   1; 1; 1; 99; 52;
            0; 0; 0; 0;   5; 0; 0; 0;   2; 0; 0; 0].

(** "a" -> "v", then an entry that claims 5 shared bytes of a 1-byte key. *)
Definition block_bad_shared : list byte :=
  bytes_of [0; 1; 1; 97; 118;   5; 1; 1; 98; 119;
            0; 0; 0; 0;   1; 0; 0; 0].

(** One entry whose lengths are varints: shared 0, non_shared 2^32 - 1,
    value_length 1; nothing follows the three length fields. *)
Definition entry_wrapping : list byte :=
  bytes_of [0; 255; 255; 255; 255; 15; 1].

(** A block of that one entry, with its restart point at offset 0. *)
Definition block_wrapping : list byte :=
  entry_wrapping ++ bytes_of [0; 0; 0; 0;   1; 0; 0; 0].

(** A block of one entry with shared 0, non_shared 1 and value_length
    2^32 - 1: the one key byte is the first byte of the restart array. *)
Definition block_wrapping_value : list byte :=
  bytes_of [0; 1; 255; 255; 255; 255; 15;   0; 0; 0; 0;   1; 0; 0; 0].

(** A buffer of 2^32 + 4 zero bytes: its trailing restart count is 0. *)
Definition block_zeros : list byte := repeat x00 (Z.to_nat (2 ^ 32 + 4)).

(** A cursor as [Iter::Iter] builds it. *)
Definition fresh (cmp : Comparator) (data : list byte)
    (restarts num_restarts : Z) : Iter.t :=
  Iter.mk cmp data restarts num_restarts restarts num_restarts [] SliceEmpty OK.

(** * Properties *)

(** ** Machine integers and decoding *)

Lemma wrap32_range z : 0 <= wrap32 z < 2 ^ 32.
Proof. unfold wrap32. apply Z.mod_pos_bound. reflexivity. Qed.

Lemma wrap32_small z : 0 <= z < 2 ^ 32 -> wrap32 z = z.
Proof. intros H. unfold wrap32. apply Z.mod_small. exact H. Qed.

Lemma byte_at_range data i : 0 <= byte_at data i < 256.
Proof.
  unfold byte_at. pose proof (Byte.to_N_bounded (nth (Z.to_nat i) data x00)). lia.
Qed.

Lemma lor_lt_pow2 a b n :
  0 <= n -> 0 <= a -> 0 <= b -> (Z.lor a b < 2 ^ n <-> a < 2 ^ n /\ b < 2 ^ n).
Proof.
  intros Hn Ha Hb.
  assert (Hab : 0 <= Z.lor a b) by (apply Z.lor_nonneg; auto).
  destruct (Z.eq_dec a 0) as [->|Ha0].
  { rewrite Z.lor_0_l. pose proof (Z.pow_pos_nonneg 2 n). lia. }
  destruct (Z.eq_dec b 0) as [->|Hb0].
  { rewrite Z.lor_0_r. pose proof (Z.pow_pos_nonneg 2 n). lia. }
  assert (Hl : Z.lor a b <> 0).
  { intro E. apply Z.lor_eq_0_iff in E. lia. }
  rewrite !Z.log2_lt_pow2 by lia.
  rewrite Z.log2_lor by lia. lia.
Qed.

Lemma lor_range a b n :
  0 <= n -> 0 <= a < 2 ^ n -> 0 <= b < 2 ^ n -> 0 <= Z.lor a b < 2 ^ n.
Proof.
  intros Hn Ha Hb. split.
  - apply Z.lor_nonneg; lia.
  - apply lor_lt_pow2; lia.
Qed.

Lemma DecodeFixed32_range data off : 0 <= DecodeFixed32 data off < 2 ^ 32.
Proof.
  unfold DecodeFixed32.
  pose proof (byte_at_range data off).
  pose proof (byte_at_range data (off + 1)).
  pose proof (byte_at_range data (off + 2)).
  pose proof (byte_at_range data (off + 3)).
  repeat apply lor_range; try lia; rewrite ?Z.shiftl_mul_pow2 by lia; lia.
Qed.

(** [GetVarint32Ptr] consumes at least one byte and stays within [limit]. *)
Lemma GetVarint32PtrFallback_advances groups data p limit shift result p' v :
  GetVarint32PtrFallback groups data p limit shift result = Some (p', v) ->
  p < p' <= limit /\ 0 <= v < 2 ^ 32.
Proof.
  revert p shift result.
  induction groups as [|groups IH]; intros p shift result;
    cbn [GetVarint32PtrFallback]; [discriminate|].
  destruct (p <? limit) eqn:Hp; [|discriminate].
  apply Z.ltb_lt in Hp.
  destruct (Z.testbit (byte_at data p) 7).
  - intros H. apply IH in H. lia.
  - intros H. injection H as <- <-. split; [lia|apply wrap32_range].
Qed.

Lemma GetVarint32Ptr_advances data p limit p' v :
  GetVarint32Ptr data p limit = Some (p', v) ->
  p < p' <= limit /\ 0 <= v < 2 ^ 32.
Proof. apply GetVarint32PtrFallback_advances. Qed.

Lemma DecodeEntry_lengths_advances data p limit d :
  p + 3 <= limit ->
  DecodeEntry_lengths data p limit = Some d ->
  p + 3 <= key_ptr d <= limit
  /\ 0 <= shared d < 2 ^ 32
  /\ 0 <= non_shared d < 2 ^ 32
  /\ 0 <= value_length d < 2 ^ 32.
Proof.
  intros Hl. unfold DecodeEntry_lengths.
  pose proof (byte_at_range data p).
  pose proof (byte_at_range data (p + 1)).
  pose proof (byte_at_range data (p + 2)).
  destruct (_ <? 128).
  - intros E. injection E as <-. simpl. lia.
  - destruct (GetVarint32Ptr data p limit) as [[p1 v1]|] eqn:E1; [|discriminate].
    destruct (GetVarint32Ptr data p1 limit) as [[p2 v2]|] eqn:E2; [|discriminate].
    destruct (GetVarint32Ptr data p2 limit) as [[p3 v3]|] eqn:E3; [|discriminate].
    apply GetVarint32Ptr_advances in E1, E2, E3.
    intros E. injection E as <-. simpl. lia.
Qed.

(** What a successful [DecodeEntry] guarantees. *)
Lemma DecodeEntry_Some data p limit d :
  0 <= p -> limit < 2 ^ 32 ->
  DecodeEntry data p limit = Some d ->
  p + 3 <= key_ptr d <= limit
  /\ 0 <= shared d < 2 ^ 32
  /\ 0 <= non_shared d < 2 ^ 32
  /\ 0 <= value_length d < 2 ^ 32
  /\ wrap32 (non_shared d + value_length d) <= limit - key_ptr d.
Proof.
  intros Hp Hlim. unfold DecodeEntry.
  destruct (limit - p <? 3) eqn:H3; [discriminate|].
  apply Z.ltb_ge in H3.
  destruct (DecodeEntry_lengths data p limit) as [d'|] eqn:E; [|discriminate].
  apply DecodeEntry_lengths_advances in E; [|lia].
  destruct (_ <? _) eqn:Hc; [discriminate|].
  intros E'. injection E' as <-.
  apply Z.ltb_ge in Hc.
  rewrite (wrap32_small (limit - key_ptr d')) in Hc by lia.
  lia.
Qed.

(** [DecodeEntry] is the worded decoder, with the two lengths added in 32
    bits: the early exit on fewer than three bytes gives what three failing
    varints would, and the test on the three bytes or-ed together is the
    test on each of them. *)
Lemma DecodeEntry_as_worded data p limit :
  limit - p < 2 ^ 32 ->
  DecodeEntry data p limit
  = DecodeEntry_worded (fun a b => wrap32 (a + b)) data p limit.
Proof.
  intros Hd. unfold DecodeEntry, DecodeEntry_worded, DecodeEntry_lengths.
  pose proof (byte_at_range data p) as H0.
  pose proof (byte_at_range data (p + 1)) as H1.
  pose proof (byte_at_range data (p + 2)) as H2.
  assert (Hor : (Z.lor (Z.lor (byte_at data p) (byte_at data (p + 1)))
                   (byte_at data (p + 2)) <? 128)
                = ((byte_at data p <? 128) && (byte_at data (p + 1) <? 128)
                   && (byte_at data (p + 2) <? 128))).
  { apply eq_true_iff_eq. rewrite !andb_true_iff, !Z.ltb_lt.
    change 128 with (2 ^ 7).
    rewrite (lor_lt_pow2 _ _ 7) by (try apply Z.lor_nonneg; lia).
    rewrite (lor_lt_pow2 _ _ 7) by lia. tauto. }
  destruct (limit - p <? 3) eqn:H3.
  - apply Z.ltb_lt in H3.
    replace (3 <=? limit - p) with false by (symmetry; apply Z.leb_gt; lia).
    cbn [andb].
    destruct (GetVarint32Ptr data p limit) as [[p1 v1]|] eqn:E1; [|reflexivity].
    destruct (GetVarint32Ptr data p1 limit) as [[p2 v2]|] eqn:E2; [|reflexivity].
    destruct (GetVarint32Ptr data p2 limit) as [[p3 v3]|] eqn:E3; [|reflexivity].
    apply GetVarint32Ptr_advances in E1, E2, E3. lia.
  - apply Z.ltb_ge in H3.
    replace (3 <=? limit - p) with true by (symmetry; apply Z.leb_le; lia).
    cbn [andb]. rewrite Hor.
    match goal with
    | |- match ?x with _ => _ end = match ?y with _ => _ end =>
        change y with x; destruct x as [d|] eqn:E; [|reflexivity]
    end.
    assert (Hk : p + 3 <= key_ptr d <= limit).
    { apply (DecodeEntry_lengths_advances data p limit); [lia|].
      unfold DecodeEntry_lengths. rewrite Hor. exact E. }
    rewrite (wrap32_small (limit - key_ptr d)) by lia. reflexivity.
Qed.

(** C7 (the length check).  The claim has [DecodeEntry] fail whenever
    [non_shared + value_length] exceeds the bytes left before [limit].  The
    source adds the two lengths in 32 bits: on [entry_wrapping] the lengths
    are 2^32 - 1 and 1, no byte is left, and [DecodeEntry] succeeds, where
    the decoder as worded fails. *)
Theorem DecodeEntry_length_check_wraps :
  DecodeEntry entry_wrapping 0 7 = Some (mkDecoded 7 0 4294967295 1)
  /\ 7 - 7 < 4294967295 + 1
  /\ DecodeEntry_worded Z.add entry_wrapping 0 7 = None.
Proof. repeat split. Qed.

(** ** Block construction and the iterator factory *)

(** [restart_offset_] keeps the low 32 bits of the difference. *)
Lemma wrap32_sub_mul a b :
  wrap32 (a - wrap32 b * 4) = wrap32 (a - 4 * b).
Proof.
  unfold wrap32.
  rewrite Zminus_mod, (Zmult_mod (b mod 2 ^ 32) 4), Z.mod_mod by lia.
  rewrite <- Zmult_mod, <- Zminus_mod. f_equal. lia.
Qed.

(** C4, as amended.  [Block::Block] marks the block invalid ([size_ = 0])
    exactly when the buffer is shorter than 4 bytes or the trailing restart
    count exceeds [(length - 4) / 4]; a valid block keeps its length, which
    is at least 4, and its [restart_offset_] holds the low 32 bits of
    [size_ - 4 * (num_restarts + 1)]: for a buffer shorter than 2^32 bytes
    that is [size_ - 4 * (num_restarts + 1)] itself, so that
    [restart_offset_ + 4 * (num_restarts + 1) = size_]. *)
Theorem Block_new_geometry (contents : Block.BlockContents) :
  let b := Block.new contents in
  let len := Z.of_nat (length (Block.data contents)) in
  let num_restarts := Block.NumRestarts (Block.data contents) len in
  (Block.size_ b = 0 <-> len < 4 \/ (len - 4) / 4 < num_restarts)
  /\ (Block.size_ b <> 0 ->
      Block.size_ b = len /\ 4 <= Block.size_ b
      /\ Block.restart_offset_ b
         = Some (wrap32 (Block.size_ b - 4 * (num_restarts + 1)))
      /\ (len < 2 ^ 32 ->
          exists restart_offset,
            Block.restart_offset_ b = Some restart_offset
            /\ restart_offset = Block.size_ b - 4 * (num_restarts + 1)
            /\ restart_offset + 4 * (num_restarts + 1) = Block.size_ b)).
Proof.
  cbv zeta. unfold Block.new.
  set (len := Z.of_nat (length (Block.data contents))).
  set (n := Block.NumRestarts (Block.data contents) len).
  assert (Hn : 0 <= n < 2 ^ 32) by apply DecodeFixed32_range.
  destruct (len <? 4) eqn:H4.
  - apply Z.ltb_lt in H4. cbn [Block.size_]. split; [|congruence]. tauto.
  - apply Z.ltb_ge in H4.
    destruct ((len - 4) / 4 <? n) eqn:Hmax.
    + apply Z.ltb_lt in Hmax. cbn [Block.size_]. split; [|congruence]. tauto.
    + apply Z.ltb_ge in Hmax. cbn [Block.size_ Block.restart_offset_].
      split; [lia|]. intros _.
      split; [reflexivity|]. split; [lia|].
      assert (Hoff : wrap32 (len - wrap32 (1 + n) * 4)
                     = wrap32 (len - 4 * (n + 1))).
      { rewrite wrap32_sub_mul. f_equal. lia. }
      rewrite Hoff. split; [reflexivity|].
      intros H32.
      assert (Hfit : 4 * n <= len - 4).
      { pose proof (Z.mul_div_le (len - 4) 4). lia. }
      exists (len - 4 * (n + 1)). repeat split; try lia.
      rewrite wrap32_small by lia. reflexivity.
Qed.

Lemma Block_new_geometry_witness :
  Block.size_ (Block.new (Block.mkContents block_abc false)) = 22
  /\ Block.restart_offset_ (Block.new (Block.mkContents block_abc false))
     = Some 14.
Proof.
  destruct (Block_new_geometry (Block.mkContents block_abc false)) as [_ H].
  destruct H as (Hsize & _ & _ & Hoff).
  - vm_compute. discriminate.
  - split; [exact Hsize|].
    destruct Hoff as (r & Hr & Heq & _).
    + vm_compute. reflexivity.
    + rewrite Hr, Heq. reflexivity.
Defined.

(** C4, as the claim states it.  [restart_offset_] is a 32-bit field: the
    buffer of 2^32 + 4 zero bytes makes a valid block with restart count 0
    and [restart_offset_ = 0], for which
    [restart_offset_ + 4 * (num_restarts + 1)] is 4 and not [size_]. *)
Lemma Block_new_offset_truncated :
  let contents := Block.mkContents block_zeros false in
  let b := Block.new contents in
  let len := Z.of_nat (length (Block.data contents)) in
  let num_restarts := Block.NumRestarts (Block.data contents) len in
  Block.size_ b = 2 ^ 32 + 4
  /\ num_restarts = 0
  /\ Block.restart_offset_ b = Some 0
  /\ 0 + 4 * (num_restarts + 1) <> Block.size_ b.
Proof.
  assert (Hlen : Z.of_nat (length block_zeros) = 2 ^ 32 + 4).
  { unfold block_zeros. rewrite repeat_length. apply Z2Nat.id. lia. }
  assert (Hbyte : forall i, byte_at block_zeros i = 0).
  { intros i. unfold byte_at, block_zeros. rewrite nth_repeat. reflexivity. }
  assert (Hnum : Block.NumRestarts block_zeros (2 ^ 32 + 4) = 0).
  { unfold Block.NumRestarts, DecodeFixed32. rewrite !Hbyte. reflexivity. }
  cbv zeta. unfold Block.new. cbv zeta.
  cbn [Block.data Block.heap_allocated].
  rewrite !Hlen, !Hnum.
  replace (2 ^ 32 + 4 <? 4) with false by reflexivity.
  replace ((2 ^ 32 + 4 - 4) / 4 <? 0) with false by reflexivity.
  cbn [Block.size_ Block.restart_offset_].
  split; [reflexivity|]. split; [reflexivity|].
  split; [f_equal; reflexivity|]. lia.
Qed.

(** C9.  A freshly constructed cursor is invalid ([current_ = restarts_],
    [restart_index_ = num_restarts_]) with an OK status, and exposes no
    entry: [key], [value], [Next] and [Prev] have their precondition
    unmet. *)
Theorem Iter_new_starts_invalid (cmp : Comparator) (data : list byte)
    (restarts num_restarts : Z) :
  0 < num_restarts ->
  exists it,
    Iter.new cmp data restarts num_restarts = Some it
    /\ Iter.current_ it = restarts
    /\ Iter.restart_index_ it = num_restarts
    /\ Iter.restarts_ it = restarts
    /\ Iter.num_restarts_ it = num_restarts
    /\ Iter.status it = OK
    /\ Iter.Valid it = false
    /\ Iter.key it = None /\ Iter.value it = None
    /\ Iter.Next it = None /\ Iter.Prev it = None.
Proof.
  intros Hn. unfold Iter.new.
  replace (0 <? num_restarts) with true by (symmetry; apply Z.ltb_lt; exact Hn).
  eexists. split; [reflexivity|].
  unfold Iter.key, Iter.value, Iter.Next, Iter.Prev, Iter.Valid, Iter.status.
  cbn [Iter.current_ Iter.restarts_ Iter.restart_index_ Iter.num_restarts_
       Iter.status_].
  rewrite Z.ltb_irrefl. repeat split.
Qed.

Lemma Iter_new_starts_invalid_witness :
  exists it,
    Iter.new bytewise_compare block_abc 14 1 = Some it
    /\ Iter.Valid it = false /\ Iter.status it = OK.
Proof.
  destruct (Iter_new_starts_invalid bytewise_compare block_abc 14 1) as (it & H).
  - lia.
  - exists it. intuition.
Defined.

Lemma Iterator_run_error ops s i :
  Iterator_run ops (ErrorIterator s) = Some i -> i = ErrorIterator s.
Proof.
  induction ops as [|op ops IH]; cbn [Iterator_run].
  - congruence.
  - destruct op; cbn [Iterator_step]; try discriminate; exact IH.
Qed.

Lemma Iterator_run_empty ops i :
  Iterator_run ops EmptyIterator = Some i -> i = EmptyIterator.
Proof.
  induction ops as [|op ops IH]; cbn [Iterator_run].
  - congruence.
  - destruct op; cbn [Iterator_step]; try discriminate; exact IH.
Qed.

(** C6.  [NewIterator] on a constructed block: an invalid block gives the
    iterator that reports "bad block contents" and is never valid; a valid
    block without restart points gives the iterator that is never valid and
    has no error; any other block gives a cursor over
    [(data_, restart_offset_, num_restarts)] with the given comparator. *)
Theorem NewIterator_variants (contents : Block.BlockContents) (cmp : Comparator) :
  let b := Block.new contents in
  let num_restarts := Block.NumRestarts (Block.data_ b) (Block.size_ b) in
  (Block.size_ b < 4 ->
     Block.NewIterator b cmp
     = Some (ErrorIterator (Corruption "bad block contents"))
     /\ forall ops i,
          Iterator_run ops (ErrorIterator (Corruption "bad block contents"))
          = Some i ->
          Iterator_Valid i = false
          /\ Iterator_status i = Corruption "bad block contents")
  /\ (4 <= Block.size_ b -> num_restarts = 0 ->
     Block.NewIterator b cmp = Some EmptyIterator
     /\ forall ops i,
          Iterator_run ops EmptyIterator = Some i ->
          Iterator_Valid i = false /\ Iterator_status i = OK)
  /\ (4 <= Block.size_ b -> num_restarts <> 0 ->
     exists restart_offset it,
       Block.restart_offset_ b = Some restart_offset
       /\ Iter.new cmp (Block.data_ b) restart_offset num_restarts = Some it
       /\ Block.NewIterator b cmp = Some (BlockIter it)
       /\ Iter.comparator_ it = cmp
       /\ Iter.data_ it = Block.data_ b
       /\ Iter.restarts_ it = restart_offset
       /\ Iter.num_restarts_ it = num_restarts).
Proof.
  cbv zeta. unfold Block.NewIterator. repeat split.
  - replace (_ <? 4) with true by (symmetry; apply Z.ltb_lt; assumption).
    reflexivity.
  - apply Iterator_run_error in H0. subst i. reflexivity.
  - apply Iterator_run_error in H0. subst i. reflexivity.
  - replace (_ <? 4) with false by (symmetry; apply Z.ltb_ge; assumption).
    rewrite H0. reflexivity.
  - apply Iterator_run_empty in H1. subst i. reflexivity.
  - apply Iterator_run_empty in H1. subst i. reflexivity.
  - intros Hsize Hn.
    replace (_ <? 4) with false by (symmetry; apply Z.ltb_ge; assumption).
    apply Z.eqb_neq in Hn. rewrite Hn. apply Z.eqb_neq in Hn.
    assert (Hpos : 0 < Block.NumRestarts (Block.data_ (Block.new contents))
                         (Block.size_ (Block.new contents))).
    { pose proof (DecodeFixed32_range (Block.data_ (Block.new contents))
                    (Block.size_ (Block.new contents) - 4)).
      unfold Block.NumRestarts in *. lia. }
    destruct (Block.restart_offset_ (Block.new contents)) as [r|] eqn:Hr.
    + exists r. unfold Iter.new.
      replace (0 <? _) with true by (symmetry; apply Z.ltb_lt; exact Hpos).
      eexists. repeat split.
    + exfalso. revert Hsize Hr. unfold Block.new.
      repeat match goal with
             | |- context [if ?c then _ else _] => destruct c
             end; cbn [Block.size_ Block.restart_offset_]; intros; try lia;
        discriminate.
Qed.

Lemma NewIterator_variants_witness :
  Block.NewIterator (Block.new (Block.mkContents (bytes_of [0; 0; 0]) false))
    bytewise_compare
  = Some (ErrorIterator (Corruption "bad block contents"))
  /\ Block.NewIterator
       (Block.new (Block.mkContents (bytes_of [0; 0; 0; 0]) false))
       bytewise_compare
     = Some EmptyIterator
  /\ exists it,
       Block.NewIterator (Block.new (Block.mkContents block_abc false))
         bytewise_compare
       = Some (BlockIter it)
       /\ Iter.restarts_ it = 14 /\ Iter.num_restarts_ it = 1.
Proof.
  split; [|split].
  - apply (NewIterator_variants
             (Block.mkContents (bytes_of [0; 0; 0]) false) bytewise_compare).
    vm_compute. reflexivity.
  - apply (NewIterator_variants
             (Block.mkContents (bytes_of [0; 0; 0; 0]) false) bytewise_compare).
    + vm_compute. discriminate.
    + vm_compute. reflexivity.
  - destruct (NewIterator_variants (Block.mkContents block_abc false)
                bytewise_compare) as (_ & _ & H).
    destruct H as (r & it & Hr & _ & Hnew & _ & _ & Hres & Hnum).
    + vm_compute. discriminate.
    + vm_compute. discriminate.
    + exists it. split; [exact Hnew|]. split.
      * rewrite Hres. vm_compute in Hr. congruence.
      * rewrite Hnum. vm_compute. reflexivity.
Defined.

(** ** ParseNextKey *)

Lemma slice_length data off len :
  0 <= off -> 0 <= len -> off + len <= Z.of_nat (length data) ->
  Z.of_nat (length (slice data off len)) = len.
Proof.
  intros Ho Hl Hb. unfold slice.
  rewrite length_firstn, length_skipn. lia.
Qed.

(** X18.  The outcomes of [ParseNextKey] with the cursor moved to
    [current], the end of the previous value: at or past the restart array
    it marks the cursor invalid, sets no error and fails; if the entry does
    not decode or the key is shorter than the shared length it records
    "bad entry in block", clears key and value, leaves the cursor invalid
    and fails; otherwise, when the [non_shared] bytes at [key_ptr] lie
    inside the buffer, it keeps [shared] bytes of the key, appends those
    bytes, takes the [value_length] bytes after them as value and succeeds,
    and when they do not, the call has no defined result.  (When the two
    lengths add up without wrapping, the delta lies inside the buffer and
    the value ends before the restart array.) *)
Lemma ParseNextKey_cases (it : Iter.t) (current : Z) :
  Iter.NextEntryOffset it = Some current ->
  (Iter.restarts_ it <= current ->
     exists it',
       Iter.ParseNextKey it = Some (false, it')
       /\ Iter.Valid it' = false
       /\ Iter.current_ it' = Iter.restarts_ it
       /\ Iter.restart_index_ it' = Iter.num_restarts_ it
       /\ Iter.status it' = Iter.status it)
  /\ (current < Iter.restarts_ it ->
      (DecodeEntry (Iter.data_ it) current (Iter.restarts_ it) = None
       \/ exists d,
            DecodeEntry (Iter.data_ it) current (Iter.restarts_ it) = Some d
            /\ Z.of_nat (length (Iter.key_ it)) < shared d) ->
      exists it',
        Iter.ParseNextKey it = Some (false, it')
        /\ Iter.Valid it' = false
        /\ Iter.current_ it' = Iter.restarts_ it
        /\ Iter.restart_index_ it' = Iter.num_restarts_ it
        /\ Iter.status it' = Corruption "bad entry in block"
        /\ Iter.key_ it' = []
        /\ Iter.value_ it' = SliceEmpty)
  /\ (current < Iter.restarts_ it ->
      forall d,
        DecodeEntry (Iter.data_ it) current (Iter.restarts_ it) = Some d ->
        shared d <= Z.of_nat (length (Iter.key_ it)) ->
        (key_ptr d + non_shared d <= Z.of_nat (length (Iter.data_ it)) ->
         exists it',
           Iter.ParseNextKey it = Some (true, it')
           /\ Iter.Valid it' = true
           /\ Iter.current_ it' = current
           /\ Iter.key_ it'
              = firstn (Z.to_nat (shared d)) (Iter.key_ it)
                ++ slice (Iter.data_ it) (key_ptr d) (non_shared d)
           /\ Iter.value_ it'
              = SliceAt (key_ptr d + non_shared d) (value_length d)
           /\ Iter.status it' = Iter.status it)
        /\ (Z.of_nat (length (Iter.data_ it)) < key_ptr d + non_shared d ->
            Iter.ParseNextKey it = None)
        /\ (non_shared d + value_length d < 2 ^ 32 ->
            Iter.restarts_ it <= Z.of_nat (length (Iter.data_ it)) ->
            Iter.restarts_ it < 2 ^ 32 ->
            Z.of_nat (length (slice (Iter.data_ it) (key_ptr d) (non_shared d)))
            = non_shared d
            /\ key_ptr d + non_shared d + value_length d <= Iter.restarts_ it)).
Proof.
  intros Hnext.
  assert (Hcur : 0 <= current).
  { unfold Iter.NextEntryOffset in Hnext.
    destruct (Iter.value_ it); [|discriminate].
    injection Hnext as <-. apply wrap32_range. }
  unfold Iter.ParseNextKey. rewrite Hnext. split; [|split].
  - intros Hend.
    replace (Iter.restarts_ it <=? current) with true
      by (symmetry; apply Z.leb_le; exact Hend).
    eexists. split; [reflexivity|].
    unfold Iter.Valid, Iter.status, Iter.mark_invalid.
    cbn [Iter.current_ Iter.restarts_ Iter.restart_index_ Iter.status_].
    rewrite Z.ltb_irrefl. repeat split.
  - intros Hlt Hbad.
    replace (Iter.restarts_ it <=? current) with false
      by (symmetry; apply Z.leb_gt; exact Hlt).
    assert (Hres : forall it', it' = Iter.CorruptionError it ->
              Iter.Valid it' = false
              /\ Iter.current_ it' = Iter.restarts_ it
              /\ Iter.restart_index_ it' = Iter.num_restarts_ it
              /\ Iter.status it' = Corruption "bad entry in block"
              /\ Iter.key_ it' = [] /\ Iter.value_ it' = SliceEmpty).
    { intros it' ->. unfold Iter.Valid, Iter.status, Iter.CorruptionError.
      cbn [Iter.current_ Iter.restarts_ Iter.restart_index_ Iter.status_
           Iter.key_ Iter.value_].
      rewrite Z.ltb_irrefl. repeat split. }
    destruct Hbad as [Hnone | (d & Hd & Hshort)].
    + rewrite Hnone. eexists. split; [reflexivity|]. apply Hres. reflexivity.
    + rewrite Hd.
      replace (_ <? shared d) with true by (symmetry; apply Z.ltb_lt; exact Hshort).
      eexists. split; [reflexivity|]. apply Hres. reflexivity.
  - intros Hlt d Hd Hlen.
    replace (Iter.restarts_ it <=? current) with false
      by (symmetry; apply Z.leb_gt; exact Hlt).
    rewrite Hd.
    replace (_ <? shared d) with false by (symmetry; apply Z.ltb_ge; exact Hlen).
    split; [|split].
    + intros Hin.
      replace (_ <? key_ptr d + non_shared d) with false
        by (symmetry; apply Z.ltb_ge; exact Hin).
      eexists. split; [reflexivity|].
      unfold Iter.Valid, Iter.status.
      cbn [Iter.current_ Iter.restarts_ Iter.status_ Iter.key_ Iter.value_].
      repeat split. apply Z.ltb_lt. exact Hlt.
    + intros Hout.
      replace (_ <? key_ptr d + non_shared d) with true
        by (symmetry; apply Z.ltb_lt; exact Hout).
      reflexivity.
    + intros Hsum Hbuf Hfit.
      apply DecodeEntry_Some in Hd; try lia.
      rewrite wrap32_small in Hd by lia.
      split; [apply slice_length|]; lia.
Qed.

Lemma ParseNextKey_cases_witness :
  exists it',
    Iter.ParseNextKey
      (Iter.mk bytewise_compare block_abc 14 1 0 0
         (bytes_of [97; 98; 99]) (SliceAt 6 2) OK)
    = Some (true, it')
    /\ Iter.key_ it' = bytes_of [97; 98; 100]
    /\ Iter.value_ it' = SliceAt 12 2.
Proof.
  destruct (ParseNextKey_cases
              (Iter.mk bytewise_compare block_abc 14 1 0 0
                 (bytes_of [97; 98; 99]) (SliceAt 6 2) OK) 8)
    as (_ & _ & H).
  - reflexivity.
  - destruct (H ltac:(cbn; lia) (mkDecoded 11 2 1 2)) as (H1 & _).
    + reflexivity.
    + cbn. lia.
    + destruct H1 as (it' & Hp & _ & _ & Hk & Hv & _).
      * cbn. lia.
      * exists it'. split; [exact Hp|].
        split; [rewrite Hk|rewrite Hv]; reflexivity.
Defined.

(** C2 (an entry accepted through the wrap).  The claim has [ParseNextKey]
    build the key and succeed whenever [DecodeEntry] succeeds and the
    previous key covers the shared length.  On [block_wrapping], from the
    first restart point, [DecodeEntry] accepts the header with
    [non_shared = 2^32 - 1] (the wrapped length check of C7), the shared
    length is 0, and the key bytes asked for run far past the 15 bytes of
    the buffer: [ParseNextKey], and [SeekToFirst] with it, has no defined
    result. *)
Theorem ParseNextKey_wrapped_entry :
  let it := Iter.SeekToRestartPoint 0 (fresh bytewise_compare block_wrapping 7 1) in
  Iter.NextEntryOffset it = Some 0
  /\ DecodeEntry (Iter.data_ it) 0 (Iter.restarts_ it)
     = Some (mkDecoded 7 0 4294967295 1)
  /\ 0 <= Z.of_nat (length (Iter.key_ it))
  /\ Z.of_nat (length (Iter.data_ it)) < 7 + 4294967295
  /\ Iter.ParseNextKey it = None
  /\ Iter.SeekToFirst (fresh bytewise_compare block_wrapping 7 1) = None.
Proof. cbv zeta. repeat split; reflexivity. Qed.

(** ** Prev at the first entry *)

Lemma Prev_scan_none it original k :
  (forall j, (j <= k)%nat -> original <= Iter.GetRestartPoint it (Z.of_nat j)) ->
  Iter.Prev_scan it original k = None.
Proof.
  induction k as [|k IH]; intros H; cbn [Iter.Prev_scan].
  - replace (original <=? _) with true
      by (symmetry; apply Z.leb_le; apply H; lia).
    reflexivity.
  - replace (original <=? _) with true
      by (symmetry; apply Z.leb_le; apply H; lia).
    apply IH. intros j Hj. apply H. lia.
Qed.

(** C10.  [Prev] on a valid cursor for which every restart point up to
    [restart_index_] is at or after the current entry: the scan reaches
    index 0 and the cursor becomes invalid, the status untouched. *)
Theorem Prev_at_first_entry (it : Iter.t) :
  Iter.Valid it = true ->
  0 <= Iter.restart_index_ it ->
  (forall j, 0 <= j <= Iter.restart_index_ it ->
     Iter.current_ it <= Iter.GetRestartPoint it j) ->
  exists it',
    Iter.Prev it = Some it'
    /\ Iter.Valid it' = false
    /\ Iter.current_ it' = Iter.restarts_ it
    /\ Iter.restart_index_ it' = Iter.num_restarts_ it
    /\ Iter.status it' = Iter.status it.
Proof.
  intros Hvalid Hri Hall. unfold Iter.Prev. rewrite Hvalid.
  rewrite Prev_scan_none.
  - eexists. split; [reflexivity|].
    unfold Iter.Valid, Iter.status, Iter.mark_invalid.
    cbn [Iter.current_ Iter.restarts_ Iter.restart_index_ Iter.status_].
    rewrite Z.ltb_irrefl. repeat split.
  - intros j Hj. apply Hall. lia.
Qed.

Lemma Prev_at_first_entry_witness :
  exists it',
    Iter.Prev (Iter.mk bytewise_compare block_abc 14 1 0 0
                 (bytes_of [97; 98; 99]) (SliceAt 6 2) OK)
    = Some it'
    /\ Iter.Valid it' = false /\ Iter.status it' = OK.
Proof.
  destruct (Prev_at_first_entry
              (Iter.mk bytewise_compare block_abc 14 1 0 0
                 (bytes_of [97; 98; 99]) (SliceAt 6 2) OK))
    as (it' & Hp & Hv & _ & _ & Hs).
  - reflexivity.
  - cbn. lia.
  - cbn [Iter.restart_index_ Iter.current_]. intros j Hj.
    assert (j = 0) as -> by lia. vm_compute. discriminate.
  - exists it'. split; [exact Hp|]. split; [exact Hv|exact Hs].
Defined.

(** ** The binary search of Seek *)

Lemma Seek_search_stops_at_bad fuel it target :
  forall left right pre mid post,
    fst (Iter.Seek_search fuel it target left right)
    = pre ++ Iter.EvProbe mid :: post ->
    bad_restart it mid = true ->
    post = [] /\ snd (Iter.Seek_search fuel it target left right) = Iter.BadRestart.
Proof.
  induction fuel as [|fuel IH]; intros left right pre mid post;
    cbn [Iter.Seek_search]; destruct (left <? right).
  - cbn [fst]. intros H. destruct pre; discriminate.
  - cbn [fst]. intros H. destruct pre; discriminate.
  - set (mid0 := wrap32 (left + right + 1) / 2).
    unfold bad_restart.
    destruct (DecodeEntry (Iter.data_ it) (Iter.GetRestartPoint it mid0)
                (Iter.restarts_ it)) as [d|] eqn:Hd.
    + destruct (negb (shared d =? 0)) eqn:Hs.
      * cbn [fst snd]. intros H _.
        destruct pre as [|e pre]; cbn [app] in H.
        -- injection H as _ <-. split; reflexivity.
        -- injection H as _ H. destruct pre; discriminate.
      * cbn [fst snd]. intros H Hbad.
        destruct pre as [|e pre]; cbn [app] in H.
        -- injection H as Hm _. subst mid. rewrite Hd, Hs in Hbad. discriminate.
        -- injection H as _ H.
           destruct pre as [|e' pre]; cbn [app] in H; [discriminate|].
           injection H as _ H.
           destruct (Iter.Compare it _ target <? 0);
             apply (IH _ _ pre mid post H); unfold bad_restart; exact Hbad.
    + cbn [fst snd]. intros H _.
      destruct pre as [|e pre]; cbn [app] in H.
      * injection H as _ <-. split; reflexivity.
      * injection H as _ H. destruct pre; discriminate.
  - cbn [fst]. intros H. destruct pre; discriminate.
Qed.

Lemma Seek_scan_no_probe fuel target :
  forall it mid, ~ In (Iter.EvProbe mid) (fst (Iter.Seek_scan fuel target it)).
Proof.
  induction fuel as [|fuel IH]; intros it mid; cbn [Iter.Seek_scan].
  - intros [].
  - destruct (Iter.ParseNextKey it) as [[[|] it']|].
    + destruct (0 <=? _); cbn [fst In].
      * intros [H|[H|[]]]; discriminate.
      * intros [H|[H|H]]; try discriminate. exact (IH _ _ H).
    + cbn [fst In]. intros [H|[]]; discriminate.
    + cbn [fst In]. intros [H|[]]; discriminate.
Qed.

(** C8.  If [Seek] probes a restart point whose entry does not decode or has
    a nonzero shared length, that probe is the last call it makes: no
    comparator call, restart probe or parse follows, and the cursor is left
    invalid with the corruption status. *)
Theorem Seek_aborts_on_bad_restart (target : list byte) (it : Iter.t)
    (pre post : list Iter.event) (mid : Z) :
  fst (Iter.Seek_traced target it) = pre ++ Iter.EvProbe mid :: post ->
  bad_restart it mid = true ->
  post = []
  /\ exists it',
       Iter.Seek target it = Some it'
       /\ it' = Iter.CorruptionError it
       /\ Iter.Valid it' = false
       /\ Iter.status it' = Corruption "bad entry in block".
Proof.
  unfold Iter.Seek, Iter.Seek_traced.
  set (search := Iter.Seek_search _ it target 0 _).
  intros Htrace Hbad.
  assert (Hin : exists pre' post',
             fst search = pre' ++ Iter.EvProbe mid :: post'
             /\ (snd search = Iter.BadRestart -> pre' = pre /\ post' = post)).
  { destruct (snd search) as [index| |] eqn:Hres; cbn [fst] in Htrace.
    - assert (Hmem : In (Iter.EvProbe mid) (fst search)).
      { assert (H : In (Iter.EvProbe mid)
                      (fst search ++ Iter.EvSeekToRestartPoint index
                         :: fst (Iter.Seek_scan (Iter.parse_fuel it) target
                                   (Iter.SeekToRestartPoint index it)))).
        { rewrite Htrace. apply in_or_app. right. left. reflexivity. }
        apply in_app_or in H. destruct H as [H|[H|H]].
        - exact H.
        - discriminate.
        - exfalso. exact (Seek_scan_no_probe _ _ _ _ H). }
      apply in_split in Hmem. destruct Hmem as (pre' & post' & Hsplit).
      exists pre', post'. split; [exact Hsplit|discriminate].
    - exists pre, post. split; [exact Htrace|]. intros _. split; reflexivity.
    - exists pre, post. split; [exact Htrace|]. intros _. split; reflexivity. }
  destruct Hin as (pre' & post' & Hsplit & Hsame).
  destruct (Seek_search_stops_at_bad _ _ _ _ _ _ _ _ Hsplit Hbad) as [Hpost Hres].
  fold search in Hres.
  destruct (Hsame Hres) as [_ <-].
  split; [exact Hpost|].
  rewrite Hres. cbn [snd]. eexists. split; [reflexivity|]. split; [reflexivity|].
  unfold Iter.Valid, Iter.status, Iter.CorruptionError.
  cbn [Iter.current_ Iter.restarts_ Iter.status_].
  rewrite Z.ltb_irrefl. split; reflexivity.
Qed.

Lemma Seek_aborts_on_bad_restart_witness :
  fst (Iter.Seek_traced (bytes_of [98]) (fresh bytewise_compare block_bad_restart 20 2))
  = [Iter.EvProbe 1]
  /\ exists it',
       Iter.Seek (bytes_of [98]) (fresh bytewise_compare block_bad_restart 20 2)
       = Some it'
       /\ Iter.Valid it' = false
       /\ Iter.status it' = Corruption "bad entry in block".
Proof.
  split; [reflexivity|].
  destruct (Seek_aborts_on_bad_restart (bytes_of [98])
              (fresh bytewise_compare block_bad_restart 20 2) [] [] 1)
    as (_ & it' & Hs & _ & Hv & Hst).
  - reflexivity.
  - reflexivity.
  - exists it'. split; [exact Hs|]. split; [exact Hv|exact Hst].
Defined.

(** ** What the operations leave alone *)

Lemma same_block_refl it : same_block it it.
Proof. repeat split. Qed.

Lemma same_block_trans it1 it2 it3 :
  same_block it1 it2 -> same_block it2 it3 -> same_block it1 it3.
Proof. unfold same_block. intuition congruence. Qed.

(** Each way [ParseNextKey] can end. *)
Lemma ParseNextKey_inv it b it' :
  Iter.ParseNextKey it = Some (b, it') ->
  exists current,
    Iter.NextEntryOffset it = Some current
    /\ ((b = false /\ Iter.restarts_ it <= current /\ it' = Iter.mark_invalid it)
        \/ (b = false /\ current < Iter.restarts_ it
            /\ it' = Iter.CorruptionError it
            /\ (DecodeEntry (Iter.data_ it) current (Iter.restarts_ it) = None
                \/ exists d,
                     DecodeEntry (Iter.data_ it) current (Iter.restarts_ it)
                     = Some d
                     /\ Z.of_nat (length (Iter.key_ it)) < shared d))
        \/ (b = true /\ current < Iter.restarts_ it
            /\ exists d,
                 DecodeEntry (Iter.data_ it) current (Iter.restarts_ it) = Some d
                 /\ shared d <= Z.of_nat (length (Iter.key_ it))
                 /\ it' = Iter.mk (Iter.comparator_ it) (Iter.data_ it)
                            (Iter.restarts_ it) (Iter.num_restarts_ it) current
                            (Iter.ParseNextKey_skip
                               (S (Z.to_nat (Iter.num_restarts_ it))) it current
                               (Iter.restart_index_ it))
                            (firstn (Z.to_nat (shared d)) (Iter.key_ it)
                             ++ slice (Iter.data_ it) (key_ptr d) (non_shared d))
                            (SliceAt (key_ptr d + non_shared d) (value_length d))
                            (Iter.status_ it))).
Proof.
  unfold Iter.ParseNextKey.
  destruct (Iter.NextEntryOffset it) as [current|]; [|discriminate].
  intros H. exists current. split; [reflexivity|].
  destruct (Iter.restarts_ it <=? current) eqn:Hend.
  - apply Z.leb_le in Hend. injection H as <- <-. left. auto.
  - apply Z.leb_gt in Hend.
    destruct (DecodeEntry (Iter.data_ it) current (Iter.restarts_ it))
      as [d|] eqn:Hd.
    + destruct (Z.of_nat (length (Iter.key_ it)) <? shared d) eqn:Hs.
      * apply Z.ltb_lt in Hs. injection H as <- <-. right. left.
        repeat split; auto. right. exists d. auto.
      * apply Z.ltb_ge in Hs.
        destruct (_ <? key_ptr d + non_shared d); [discriminate|].
        injection H as <- <-. right. right.
        repeat split; auto. exists d. auto.
    + injection H as <- <-. right. left. repeat split; auto.
Qed.

Lemma ParseNextKey_same_block it b it' :
  Iter.ParseNextKey it = Some (b, it') -> same_block it it'.
Proof.
  intros H. apply ParseNextKey_inv in H.
  destruct H as (c & _ & [(_ & _ & ->) | [(_ & _ & -> & _)
                                         | (_ & _ & d & _ & _ & ->)]]);
    repeat split.
Qed.

(** ** The corruption status *)








(** ** The loops end within their bounds *)










(** ** The entries of a well-formed block *)

Section Chain.

Variables (data : list byte) (limit : Z).
Hypothesis limit_fits : limit < 2 ^ 32.

Lemma entries_from_chain fuel :
  forall off prev es,
    entries_from fuel data limit off prev = Some es ->
    chain data limit off prev es.
Proof.
  induction fuel as [|fuel IH]; intros off prev es; cbn [entries_from];
    [discriminate|].
  destruct (off =? limit) eqn:Heq.
  { apply Z.eqb_eq in Heq. subst off. intros H. injection H as <-. constructor. }
  apply Z.eqb_neq in Heq.
  destruct (limit <? off) eqn:Hlt; [discriminate|].
  apply Z.ltb_ge in Hlt.
  destruct (DecodeEntry data off limit) as [d|] eqn:Hd; [|discriminate].
  destruct (_ || _) eqn:Hor; [discriminate|].
  apply orb_false_iff in Hor. destruct Hor as [Hs Hfit].
  apply Z.ltb_ge in Hs, Hfit.
  destruct (entries_from fuel data limit _ _) as [rest|] eqn:Hrest;
    [|discriminate].
  intros H. injection H as <-.
  apply chain_entry; try assumption; try lia.
  apply IH. exact Hrest.
Qed.

(** What the first link of a chain says. *)
Lemma chain_head off prev e rest :
  0 <= off ->
  chain data limit off prev (e :: rest) ->
  e_off e = off /\ off < limit
  /\ DecodeEntry data off limit = Some (e_hdr e)
  /\ shared (e_hdr e) <= Z.of_nat (length prev)
  /\ e_key e = firstn (Z.to_nat (shared (e_hdr e))) prev
               ++ slice data (key_ptr (e_hdr e)) (non_shared (e_hdr e))
  /\ off + 3 <= key_ptr (e_hdr e)
  /\ 0 <= shared (e_hdr e)
  /\ 0 <= non_shared (e_hdr e)
  /\ 0 <= value_length (e_hdr e)
  /\ e_next e <= limit
  /\ chain data limit (e_next e) (e_key e) rest.
Proof.
  intros Hoff H. inversion H as [|off' prev' d rest' Hlt Hd Hs Hfit Hrest]; subst.
  unfold e_next. cbn [e_off e_hdr e_key].
  pose proof (DecodeEntry_Some _ _ _ _ Hoff limit_fits Hd).
  repeat split; try assumption; lia.
Qed.

Lemma chain_bounds :
  forall es off prev,
    0 <= off ->
    chain data limit off prev es ->
    off <= limit
    /\ forall x, In x es ->
         off <= e_off x /\ e_off x + 3 <= e_next x /\ e_next x <= limit.
Proof.
  induction es as [|e rest IH]; intros off prev Hoff H.
  - inversion H; subst. split; [lia|]. intros x [].
  - apply chain_head in H; [|exact Hoff].
    destruct H as (He & Hlt & _ & _ & _ & Hk & _ & Hns & Hvl & Hn & Hrest).
    assert (Hstep : off + 3 <= e_next e) by (unfold e_next in *; lia).
    destruct (IH (e_next e) (e_key e) ltac:(lia) Hrest) as [_ Hall].
    split; [lia|]. intros x [<-|Hx].
    + lia.
    + specialize (Hall x Hx). lia.
Qed.

Lemma chain_length es off prev :
  0 <= off ->
  chain data limit off prev es ->
  off + Z.of_nat (length es) <= limit.
Proof.
  revert off prev. induction es as [|e rest IH]; intros off prev Hoff H.
  - inversion H; subst. cbn. lia.
  - pose proof (chain_bounds _ _ _ Hoff H) as [_ Hall].
    specialize (Hall e (or_introl eq_refl)).
    apply chain_head in H; [|exact Hoff].
    destruct H as (He & _ & _ & _ & _ & _ & _ & _ & _ & _ & Hrest).
    specialize (IH (e_next e) (e_key e) ltac:(lia) Hrest).
    cbn [length]. lia.
Qed.

Lemma after_snoc off prev l x :
  after off prev (l ++ [x]) = (e_next x, e_key x).
Proof. unfold after. rewrite fold_left_app. reflexivity. Qed.

(** The rest of a chain is a chain. *)
Lemma chain_suffix :
  forall l1 l2 off prev,
    0 <= off ->
    chain data limit off prev (l1 ++ l2) ->
    chain data limit (fst (after off prev l1)) (snd (after off prev l1)) l2
    /\ off <= fst (after off prev l1)
    /\ (forall x, In x l1 -> e_next x <= fst (after off prev l1)).
Proof.
  induction l1 as [|e l1 IH]; intros l2 off prev Hoff H.
  - cbn. split; [exact H|]. split; [lia|]. intros x [].
  - cbn [app] in H.
    pose proof (chain_bounds _ _ _ Hoff H) as [_ Hall].
    specialize (Hall e (or_introl eq_refl)).
    apply chain_head in H; [|exact Hoff].
    destruct H as (He & _ & _ & _ & _ & _ & _ & _ & _ & _ & Hrest).
    destruct (IH l2 (e_next e) (e_key e) ltac:(lia) Hrest) as (Hc & Hle & Hin).
    change (after off prev (e :: l1)) with (after (e_next e) (e_key e) l1).
    split; [exact Hc|]. split; [lia|].
    intros x [<-|Hx]; [lia|]. apply Hin. exact Hx.
Qed.

(** The offsets increase along a chain. *)
Lemma chain_split la a lb off prev :
  0 <= off ->
  chain data limit off prev (la ++ a :: lb) ->
  (forall x, In x la -> e_next x <= e_off a)
  /\ (forall x, In x lb -> e_next a <= e_off x)
  /\ 0 <= e_off a /\ e_off a + 3 <= e_next a /\ e_next a <= limit
  /\ exists prev',
       chain data limit (e_off a) prev' (a :: lb)
       /\ (la = [] -> prev' = prev /\ e_off a = off)
       /\ (forall la' x, la = la' ++ [x] -> prev' = e_key x /\ e_off a = e_next x).
Proof.
  intros Hoff H.
  destruct (chain_suffix la (a :: lb) _ _ Hoff H) as (Hc & Hle & Hin).
  set (off' := fst (after off prev la)) in *.
  set (prev' := snd (after off prev la)) in *.
  assert (Hoff' : 0 <= off') by lia.
  pose proof (chain_bounds _ _ _ Hoff' Hc) as [_ Hall].
  pose proof (Hall a (or_introl eq_refl)) as Ha.
  pose proof (chain_head _ _ _ _ Hoff' Hc) as Hh.
  destruct Hh as (He & _ & _ & _ & _ & _ & _ & _ & _ & _ & Hrest).
  pose proof (chain_bounds lb (e_next a) (e_key a) ltac:(lia) Hrest) as [_ Hall'].
  split; [intros x Hx; specialize (Hin x Hx); lia|].
  split; [intros x Hx; specialize (Hall' x Hx); lia|].
  repeat split; try lia.
  exists prev'. rewrite He. split; [exact Hc|]. split.
  - intros ->. subst off' prev'. cbn. auto.
  - intros la' x ->. subst off' prev'. rewrite after_snoc. cbn. auto.
Qed.

(** An entry of a chain decodes where it starts; if it shares nothing its
    key is its delta. *)
Lemma chain_In es off prev e :
  0 <= off ->
  chain data limit off prev es ->
  In e es ->
  DecodeEntry data (e_off e) limit = Some (e_hdr e)
  /\ (shared (e_hdr e) = 0 ->
      e_key e = slice data (key_ptr (e_hdr e)) (non_shared (e_hdr e))).
Proof.
  intros Hoff H Hin. apply in_split in Hin. destruct Hin as (la & lb & ->).
  destruct (chain_split _ _ _ _ _ Hoff H)
    as (_ & _ & Ha & _ & _ & prev' & Hc & _).
  apply chain_head in Hc; [|exact Ha].
  destruct Hc as (_ & _ & Hd & _ & Hk & _).
  split; [exact Hd|]. intros Hs. rewrite Hk, Hs. reflexivity.
Qed.

Lemma chain_offset_inj es off prev a b :
  0 <= off ->
  chain data limit off prev es ->
  In a es -> In b es -> e_off a = e_off b -> a = b.
Proof.
  intros Hoff H Ha Hb Heq. apply in_split in Ha. destruct Ha as (la & lb & ->).
  destruct (chain_split _ _ _ _ _ Hoff H) as (Hbefore & Hafter & _ & Hstep & _).
  apply in_app_or in Hb. destruct Hb as [Hb|[Hb|Hb]].
  - specialize (Hbefore b Hb).
    assert (In b (la ++ a :: lb)) as Hin by (apply in_or_app; auto).
    destruct (chain_bounds _ _ _ Hoff H) as [_ Hall].
    specialize (Hall b Hin). lia.
  - exact Hb.
  - specialize (Hafter b Hb). lia.
Qed.

End Chain.

(** ** Walking a well-formed block *)

(** The loop that advances [restart_index_] ends on its exit condition. *)
Lemma ParseNextKey_skip_exit fuel :
  forall it current ri,
    0 <= ri < Iter.num_restarts_ it ->
    Iter.num_restarts_ it < 2 ^ 32 ->
    (Z.to_nat (Iter.num_restarts_ it - ri) <= fuel)%nat ->
    ri <= Iter.ParseNextKey_skip fuel it current ri < Iter.num_restarts_ it
    /\ (Iter.ParseNextKey_skip fuel it current ri + 1 < Iter.num_restarts_ it ->
        current
        <= Iter.GetRestartPoint it (Iter.ParseNextKey_skip fuel it current ri + 1)).
Proof.
  induction fuel as [|fuel IH]; intros it current ri Hri Hn Hfuel;
    cbn [Iter.ParseNextKey_skip]; [lia|].
  rewrite (wrap32_small (ri + 1)) by lia.
  destruct (ri + 1 <? Iter.num_restarts_ it) eqn:Hlt; cbn [andb].
  - apply Z.ltb_lt in Hlt.
    destruct (Iter.GetRestartPoint it (ri + 1) <? current) eqn:Hc.
    + destruct (IH it current (ri + 1)) as [H1 H2]; [lia|lia|lia|].
      split; [lia|exact H2].
    + apply Z.ltb_ge in Hc. split; [lia|]. intros _. exact Hc.
  - apply Z.ltb_ge in Hlt. split; lia.
Qed.

Lemma list_head {A} (l : list A) : l <> [] -> exists x l', l = x :: l'.
Proof. destruct l as [|x l']; [congruence|]. intros _. exists x, l'. reflexivity. Qed.

Lemma list_nil_or {A} (l : list A) : l = [] \/ l <> [].
Proof. destruct l; [left; reflexivity|right; discriminate]. Qed.

Lemma list_last {A} (l : list A) : l <> [] -> exists l' x, l = l' ++ [x].
Proof.
  intros H. destruct (exists_last H) as (l' & x & E). exists l', x. exact E.
Qed.

Section Walk.

Variables (data : list byte) (limit n : Z) (es : list Entry).
Hypothesis wf : WellFormed data limit n es.

Lemma wf_limit_nonneg : 0 <= limit.
Proof. exact (wf_restarts _ _ _ _ wf). Qed.

Lemma wf_limit_fits : limit < 2 ^ 32.
Proof.
  pose proof (wf_num _ _ _ _ wf). pose proof (wf_size _ _ _ _ wf).
  pose proof (wf_size32 _ _ _ _ wf). lia.
Qed.

Lemma wf_num_fits : n < 2 ^ 30.
Proof.
  pose proof wf_limit_nonneg. pose proof (wf_size _ _ _ _ wf).
  pose proof (wf_size32 _ _ _ _ wf). lia.
Qed.

Lemma wf_chain : chain data limit 0 [] es.
Proof.
  apply (entries_from_chain data limit (S (Z.to_nat limit))).
  exact (wf_entries _ _ _ _ wf).
Qed.

Lemma wf_look : forall la a lb,
  es = la ++ a :: lb ->
  (forall x, In x la -> e_next x <= e_off a)
  /\ (forall x, In x lb -> e_next a <= e_off x)
  /\ 0 <= e_off a /\ e_off a + 3 <= e_next a /\ e_next a <= limit
  /\ exists prev',
       chain data limit (e_off a) prev' (a :: lb)
       /\ (la = [] -> prev' = [] /\ e_off a = 0)
       /\ (forall la' x, la = la' ++ [x] -> prev' = e_key x /\ e_off a = e_next x).
Proof.
  intros la a lb E. apply (chain_split data limit wf_limit_fits la a lb 0 []).
  - lia.
  - rewrite <- E. exact wf_chain.
Qed.

Lemma restart_point_mono j k :
  0 <= j -> j + Z.of_nat k < n ->
  restart_point data limit j <= restart_point data limit (j + Z.of_nat k).
Proof.
  intros Hj. induction k as [|k IH]; intros Hk.
  - rewrite Z.add_0_r. lia.
  - pose proof (wf_increasing _ _ _ _ wf (j + Z.of_nat k)) as Hinc.
    replace (j + Z.of_nat (S k)) with (j + Z.of_nat k + 1) by lia.
    lia.
Qed.

(** Every restart point is the start of an entry that shares nothing. *)
Lemma restart_entry j :
  0 <= j < n -> es <> [] ->
  exists la e lb,
    es = la ++ e :: lb
    /\ e_off e = restart_point data limit j
    /\ shared (e_hdr e) = 0.
Proof.
  intros Hj Hne. destruct (Z.eq_dec j 0) as [->|Hj0].
  - destruct (list_head es Hne) as (e & lb & E).
    exists [], e, lb. split; [exact E|].
    pose proof wf_chain as Hc. rewrite E in Hc.
    apply (chain_head data limit wf_limit_fits) in Hc; [|lia].
    destruct Hc as (He & _ & _ & Hs & _ & _ & Hs0 & _).
    rewrite (wf_first _ _ _ _ wf). cbn [length] in Hs. split; lia.
  - destruct (wf_restart_entry _ _ _ _ wf j ltac:(lia)) as (e & Hin & Ho & Hs).
    apply in_split in Hin. destruct Hin as (la & lb & E).
    exists la, e, lb. auto.
Qed.

(** *** One step of parsing *)

Lemma positioned_next it e :
  positioned data limit n it e -> In e es ->
  Iter.NextEntryOffset it = Some (e_next e).
Proof.
  intros (_ & (_ & _ & Hv) & _) Hin.
  apply in_split in Hin. destruct Hin as (la & lb & E).
  destruct (wf_look _ _ _ E) as (_ & _ & H0 & H3 & Hl & _).
  unfold Iter.NextEntryOffset. rewrite Hv. unfold e_value.
  rewrite wrap32_small; [reflexivity|].
  pose proof wf_limit_fits. unfold e_next in *. lia.
Qed.

Lemma ParseNextKey_chain it off prev e rest :
  on_block data limit n it ->
  0 <= off ->
  chain data limit off prev (e :: rest) ->
  Iter.NextEntryOffset it = Some off ->
  Iter.key_ it = prev \/ shared (e_hdr e) = 0 ->
  0 <= Iter.restart_index_ it < n ->
  exists it',
    Iter.ParseNextKey it = Some (true, it')
    /\ positioned data limit n it' e
    /\ Iter.comparator_ it' = Iter.comparator_ it
    /\ Iter.status_ it' = Iter.status_ it
    /\ Iter.NextEntryOffset it' = Some (e_next e)
    /\ Iter.Valid it' = true.
Proof.
  intros (Hdata & Hlim & Hnum) Hoff Hc Hnext Hkey Hri.
  pose proof wf_limit_fits as Hfit. pose proof wf_num_fits as Hnfit.
  destruct (chain_head data limit Hfit _ _ _ _ Hoff Hc)
    as (He & Hlt & Hd & Hs & Hk & Hp & Hs0 & Hns & Hvl & Hn & _).
  unfold Iter.ParseNextKey. rewrite Hnext, Hdata, Hlim.
  replace (limit <=? off) with false by (symmetry; apply Z.leb_gt; exact Hlt).
  rewrite Hd.
  replace (Z.of_nat (length (Iter.key_ it)) <? shared (e_hdr e)) with false.
  2:{ symmetry. apply Z.ltb_ge. destruct Hkey as [-> | ->]; lia. }
  replace (Z.of_nat (length data) <? _) with false.
  2:{ symmetry. apply Z.ltb_ge.
      pose proof (wf_size _ _ _ _ wf). pose proof (wf_num _ _ _ _ wf).
      unfold e_next in Hn. lia. }
  eexists. split; [reflexivity|].
  assert (Hkeyeq : firstn (Z.to_nat (shared (e_hdr e))) (Iter.key_ it)
                   ++ slice data (key_ptr (e_hdr e)) (non_shared (e_hdr e))
                   = e_key e).
  { rewrite Hk. destruct Hkey as [-> | ->]; reflexivity. }
  unfold positioned, on_block, at_entry, restart_index_ok, Iter.Valid,
    Iter.NextEntryOffset, Iter.GetRestartPoint.
  cbn [Iter.data_ Iter.restarts_ Iter.num_restarts_ Iter.current_
       Iter.restart_index_ Iter.key_ Iter.value_ Iter.status_ Iter.comparator_].
  rewrite Hnum.
  destruct (ParseNextKey_skip_exit (S (Z.to_nat n)) it off (Iter.restart_index_ it))
    as [Hr1 Hr2]; try lia.
  rewrite Hnum in Hr1, Hr2. unfold Iter.GetRestartPoint in Hr2.
  rewrite Hdata, Hlim in Hr2.
  repeat split; try assumption; try lia.
  rewrite wrap32_small; [reflexivity|]. unfold e_next in Hn. lia.
Qed.

Lemma ParseNextKey_end it :
  on_block data limit n it ->
  Iter.NextEntryOffset it = Some limit ->
  Iter.ParseNextKey it = Some (false, Iter.mark_invalid it).
Proof.
  intros (_ & Hlim & _) Hnext. unfold Iter.ParseNextKey.
  rewrite Hnext, Hlim, Z.leb_refl. reflexivity.
Qed.

(** *** A run of entries *)

(** Started where the run [s' ++ [e_last]] begins, the [ParseNextKey] loop
    stops on [e_last], the first entry that ends at or after [bound]. *)
Lemma parse_while_segment bound :
  forall s' e_last rest off prev it fuel,
    on_block data limit n it ->
    0 <= off ->
    chain data limit off prev (s' ++ e_last :: rest) ->
    Iter.NextEntryOffset it = Some off ->
    (Iter.key_ it = prev
     \/ forall x, hd_error (s' ++ e_last :: rest) = Some x -> shared (e_hdr x) = 0) ->
    0 <= Iter.restart_index_ it < n ->
    (forall x, In x s' -> e_next x < bound) ->
    bound <= e_next e_last ->
    (length s' < fuel)%nat ->
    exists it',
      Iter.parse_while fuel bound it = Some it'
      /\ positioned data limit n it' e_last
      /\ Iter.comparator_ it' = Iter.comparator_ it
      /\ Iter.status_ it' = Iter.status_ it.
Proof.
  induction s' as [|x s' IH];
    intros e_last rest off prev it fuel Hon Hoff Hc Hnext Hkey Hri Hin Hlast Hfuel.
  - destruct fuel as [|fuel]; [cbn in Hfuel; lia|]. cbn [app] in Hc, Hkey.
    destruct (ParseNextKey_chain it off prev e_last rest Hon Hoff Hc Hnext)
      as (it' & Hp & Hpos & Hcmp & Hst & Hn' & _); [|exact Hri|].
    { destruct Hkey as [Hk|Hk]; [left; exact Hk|right; apply Hk; reflexivity]. }
    cbn [Iter.parse_while]. rewrite Hp, Hn'.
    replace (e_next e_last <? bound) with false
      by (symmetry; apply Z.ltb_ge; exact Hlast).
    exists it'. auto.
  - destruct fuel as [|fuel]; [cbn in Hfuel; lia|].
    cbn [app] in Hc, Hkey.
    destruct (ParseNextKey_chain it off prev x (s' ++ e_last :: rest)
                Hon Hoff Hc Hnext)
      as (it1 & Hp & Hpos & Hcmp & Hst & Hn' & _); [|exact Hri|].
    { destruct Hkey as [Hk|Hk]; [left; exact Hk|right; apply Hk; reflexivity]. }
    cbn [Iter.parse_while]. rewrite Hp, Hn'.
    replace (e_next x <? bound) with true
      by (symmetry; apply Z.ltb_lt; apply Hin; left; reflexivity).
    destruct (chain_head data limit wf_limit_fits _ _ _ _ Hoff Hc)
      as (He & _ & _ & _ & _ & Hkp & _ & Hns & Hvl & _ & Hrest).
    destruct Hpos as (Hon1 & (Hcur & Hk1 & Hv1) & (Hri1 & _)).
    destruct (IH e_last rest (e_next x) (e_key x) it1 fuel) as (it' & H1 & H2 & H3 & H4);
      try assumption.
    + unfold e_next. lia.
    + left. exact Hk1.
    + destruct Hon1 as (_ & _ & Hnum1). rewrite Hnum1 in Hri1. exact Hri1.
    + intros y Hy. apply Hin. right. exact Hy.
    + cbn [length] in Hfuel. lia.
    + exists it'. split; [exact H1|]. split; [exact H2|]. split; congruence.
Qed.

(** *** The positioning operations *)

Lemma SeekToRestartPoint_facts j it :
  on_block data limit n it ->
  on_block data limit n (Iter.SeekToRestartPoint j it)
  /\ Iter.NextEntryOffset (Iter.SeekToRestartPoint j it)
     = Some (restart_point data limit j)
  /\ Iter.key_ (Iter.SeekToRestartPoint j it) = []
  /\ Iter.restart_index_ (Iter.SeekToRestartPoint j it) = j
  /\ Iter.comparator_ (Iter.SeekToRestartPoint j it) = Iter.comparator_ it
  /\ Iter.status_ (Iter.SeekToRestartPoint j it) = Iter.status_ it.
Proof.
  intros (Hdata & Hlim & Hnum).
  unfold on_block, Iter.SeekToRestartPoint, Iter.NextEntryOffset,
    Iter.GetRestartPoint, restart_point.
  cbn [Iter.data_ Iter.restarts_ Iter.num_restarts_ Iter.value_ Iter.key_
       Iter.restart_index_ Iter.comparator_ Iter.status_].
  rewrite Hdata, Hlim, Z.add_0_r.
  rewrite wrap32_small by apply DecodeFixed32_range.
  repeat split; assumption.
Qed.

Lemma wf_empty_limit : es = [] -> limit = 0.
Proof.
  intros E. pose proof wf_chain as Hc. rewrite E in Hc.
  inversion Hc. reflexivity.
Qed.

Lemma wf_length : (length es < S (Z.to_nat limit))%nat.
Proof.
  pose proof (chain_length data limit wf_limit_fits es 0 [] ltac:(lia) wf_chain).
  lia.
Qed.

Lemma wf_last_next la e : es = la ++ [e] -> e_next e = limit.
Proof.
  intros E. destruct (wf_look la e [] E) as (_ & _ & H0 & _ & _ & prev' & Hc & _).
  apply (chain_head data limit wf_limit_fits) in Hc; [|exact H0].
  destruct Hc as (_ & _ & _ & _ & _ & _ & _ & _ & _ & _ & Hrest).
  inversion Hrest. reflexivity.
Qed.

Lemma mark_invalid_facts it :
  Iter.Valid (Iter.mark_invalid it) = false
  /\ Iter.status_ (Iter.mark_invalid it) = Iter.status_ it.
Proof.
  unfold Iter.Valid, Iter.mark_invalid.
  cbn [Iter.current_ Iter.restarts_ Iter.status_].
  rewrite Z.ltb_irrefl. split; reflexivity.
Qed.

Lemma SeekToFirst_entry e rest it :
  es = e :: rest ->
  on_block data limit n it ->
  exists it',
    Iter.SeekToFirst it = Some it'
    /\ positioned data limit n it' e
    /\ Iter.comparator_ it' = Iter.comparator_ it
    /\ Iter.status_ it' = Iter.status_ it
    /\ Iter.Valid it' = true.
Proof.
  intros E Hon.
  destruct (SeekToRestartPoint_facts 0 it Hon)
    as (Hon0 & Hnext & Hkey & Hri & Hcmp & Hst).
  rewrite (wf_first _ _ _ _ wf) in Hnext.
  pose proof wf_chain as Hc. rewrite E in Hc.
  destruct (ParseNextKey_chain _ 0 [] e rest Hon0 ltac:(lia) Hc Hnext)
    as (it' & Hp & Hpos & Hcmp' & Hst' & _ & Hv).
  - left. exact Hkey.
  - rewrite Hri. pose proof (wf_num _ _ _ _ wf). lia.
  - unfold Iter.SeekToFirst. rewrite Hp. exists it'.
    repeat split; try apply Hpos; try assumption; congruence.
Qed.

Lemma SeekToFirst_empty it :
  es = [] ->
  on_block data limit n it ->
  Iter.SeekToFirst it
  = Some (Iter.mark_invalid (Iter.SeekToRestartPoint 0 it)).
Proof.
  intros E Hon.
  destruct (SeekToRestartPoint_facts 0 it Hon) as (Hon0 & Hnext & _).
  rewrite (wf_first _ _ _ _ wf) in Hnext.
  unfold Iter.SeekToFirst.
  rewrite (ParseNextKey_end _ Hon0); [reflexivity|].
  rewrite Hnext, (wf_empty_limit E). reflexivity.
Qed.

Lemma positioned_valid it e :
  positioned data limit n it e -> In e es -> Iter.Valid it = true.
Proof.
  intros ((_ & Hlim & _) & (Hcur & _) & _) Hin.
  apply in_split in Hin. destruct Hin as (la & lb & E).
  destruct (wf_look _ _ _ E) as (_ & _ & _ & H3 & Hl & _).
  unfold Iter.Valid. rewrite Hcur, Hlim. apply Z.ltb_lt. lia.
Qed.

Lemma positioned_index it e :
  positioned data limit n it e -> 0 <= Iter.restart_index_ it < n.
Proof. intros ((_ & _ & Hnum) & _ & (Hri & _)). rewrite Hnum in Hri. exact Hri. Qed.

Lemma Next_step la e e2 lb it :
  es = la ++ e :: e2 :: lb ->
  positioned data limit n it e ->
  exists it',
    Iter.Next it = Some it'
    /\ positioned data limit n it' e2
    /\ Iter.comparator_ it' = Iter.comparator_ it
    /\ Iter.status_ it' = Iter.status_ it.
Proof.
  intros E Hpos.
  assert (Hin : In e es) by (rewrite E; apply in_or_app; right; left; reflexivity).
  assert (E2 : es = (la ++ [e]) ++ e2 :: lb) by (rewrite <- app_assoc; exact E).
  destruct (wf_look _ _ _ E2) as (_ & _ & H0 & _ & _ & prev' & Hc & _ & Hlast).
  destruct (Hlast la e eq_refl) as [-> Hoff].
  pose proof (positioned_next it e Hpos Hin) as Hnext. rewrite <- Hoff in Hnext.
  destruct (ParseNextKey_chain it (e_off e2) (e_key e) e2 lb) as
    (it' & Hp & Hpos' & Hcmp & Hst & _); try assumption.
  - apply Hpos.
  - left. apply Hpos.
  - exact (positioned_index it e Hpos).
  - unfold Iter.Next. rewrite (positioned_valid it e Hpos Hin), Hp.
    exists it'. auto.
Qed.

Lemma Next_last la e it :
  es = la ++ [e] ->
  positioned data limit n it e ->
  Iter.Next it = Some (Iter.mark_invalid it).
Proof.
  intros E Hpos.
  assert (Hin : In e es) by (rewrite E; apply in_or_app; right; left; reflexivity).
  pose proof (positioned_next it e Hpos Hin) as Hnext.
  rewrite (wf_last_next la e E) in Hnext.
  unfold Iter.Next.
  rewrite (positioned_valid it e Hpos Hin), (ParseNextKey_end it); auto.
  apply Hpos.
Qed.

Lemma Prev_scan_some it original :
  forall k,
    Iter.GetRestartPoint it 0 < original ->
    exists j,
      Iter.Prev_scan it original k = Some j
      /\ 0 <= j <= Z.of_nat k
      /\ Iter.GetRestartPoint it j < original
      /\ forall i, j < i <= Z.of_nat k -> original <= Iter.GetRestartPoint it i.
Proof.
  induction k as [|k IH]; intros H0; cbn [Iter.Prev_scan].
  - replace (original <=? _) with false by (symmetry; apply Z.leb_gt; exact H0).
    exists 0. repeat split; first [lia|assumption].
  - destruct (original <=? Iter.GetRestartPoint it (Z.of_nat (S k))) eqn:Hc.
    + apply Z.leb_le in Hc.
      destruct (IH H0) as (j & Hj & Hr & Hlt & Hall). exists j.
      split; [exact Hj|]. split; [lia|]. split; [exact Hlt|].
      intros i Hi. destruct (Z.eq_dec i (Z.of_nat (S k))) as [->|Hne].
      * exact Hc.
      * apply Hall. lia.
    + apply Z.leb_gt in Hc. exists (Z.of_nat (S k)).
      split; [reflexivity|]. split; [lia|]. split; [exact Hc|]. intros i Hi. lia.
Qed.

(** From an entry other than the first, [Prev] replays from the nearest
    restart point strictly before it. *)
Lemma Prev_nearest_restart l1 e' e l2 it :
  es = l1 ++ e' :: e :: l2 ->
  positioned data limit n it e ->
  exists j,
    0 <= j < n
    /\ restart_point data limit j < e_off e
    /\ (forall j', j < j' < n -> e_off e <= restart_point data limit j')
    /\ Iter.Prev it
       = Iter.parse_while (Iter.parse_fuel it) (e_off e)
           (Iter.SeekToRestartPoint j it).
Proof.
  intros E Hpos.
  assert (Hin : In e es).
  { rewrite E. apply in_or_app. right. right. left. reflexivity. }
  destruct (wf_look _ _ _ E) as (_ & _ & He'0 & He'3 & _).
  assert (E2 : es = (l1 ++ [e']) ++ e :: l2) by (rewrite <- app_assoc; exact E).
  destruct (wf_look _ _ _ E2) as (_ & _ & _ & _ & _ & prev' & _ & _ & Hlast).
  destruct (Hlast l1 e' eq_refl) as [_ Hoff].
  pose proof Hpos as (Hon & (Hcur & _) & (_ & Hnextrp)).
  pose proof Hon as (Hdata & Hlim & Hnum).
  pose proof (positioned_index it e Hpos) as Hri.
  assert (Hgrp : forall j, Iter.GetRestartPoint it j = restart_point data limit j).
  { intros j. unfold Iter.GetRestartPoint, restart_point.
    rewrite Hdata, Hlim. reflexivity. }
  destruct (Prev_scan_some it (Iter.current_ it) (Z.to_nat (Iter.restart_index_ it)))
    as (j & Hscan & Hjr & Hjlt & Hjall).
  { rewrite Hgrp, (wf_first _ _ _ _ wf), Hcur. lia. }
  exists j. rewrite Hgrp, Hcur in Hjlt.
  split; [lia|]. split; [exact Hjlt|]. split.
  - intros j' Hj'.
    destruct (Z_le_gt_dec j' (Iter.restart_index_ it)) as [Hle|Hgt].
    + rewrite <- Hgrp, <- Hcur. apply Hjall. lia.
    + rewrite Hnum, Hgrp, Hcur in Hnextrp.
      pose proof (restart_point_mono (Iter.restart_index_ it + 1)
                    (Z.to_nat (j' - (Iter.restart_index_ it + 1)))
                    ltac:(lia)) as Hmono.
      rewrite Z2Nat.id in Hmono by lia.
      replace (Iter.restart_index_ it + 1 + (j' - (Iter.restart_index_ it + 1)))
        with j' in Hmono by lia.
      specialize (Hmono ltac:(lia)). lia.
  - unfold Iter.Prev.
    rewrite (positioned_valid it e Hpos Hin), Hscan, Hcur. reflexivity.
Qed.

(** A run of entries from a restart point up to and including [e_last]:
    seek to the restart point, then parse while the entry ends before
    [bound]. *)
Lemma replay_from_restart j lp em mid e_last rest bound it :
  on_block data limit n it ->
  0 <= j < n ->
  es = lp ++ em :: mid ++ rest ->
  e_off em = restart_point data limit j ->
  shared (e_hdr em) = 0 ->
  (exists s', em :: mid = s' ++ [e_last]
              /\ forall x, In x s' -> e_next x < bound) ->
  bound <= e_next e_last ->
  exists it',
    Iter.parse_while (Iter.parse_fuel it) bound (Iter.SeekToRestartPoint j it)
    = Some it'
    /\ positioned data limit n it' e_last
    /\ Iter.comparator_ it' = Iter.comparator_ it
    /\ Iter.status_ it' = Iter.status_ it.
Proof.
  intros Hon Hj E Hoff Hshared (s' & Hseg & Hbefore) Hlast.
  destruct (SeekToRestartPoint_facts j it Hon)
    as (Hon0 & Hnext & Hkey & Hri & Hcmp & Hst).
  destruct (wf_look _ _ _ E) as (_ & _ & H0 & _ & _ & prev' & Hc & _).
  assert (Hlist : em :: mid ++ rest = s' ++ e_last :: rest).
  { change (em :: mid ++ rest) with ((em :: mid) ++ rest).
    rewrite Hseg, <- app_assoc. reflexivity. }
  rewrite Hlist in Hc. rewrite <- Hoff in Hnext.
  destruct (parse_while_segment bound s' e_last rest (e_off em) prev'
              (Iter.SeekToRestartPoint j it) (Iter.parse_fuel it))
    as (it' & Hp & Hpos & Hcmp' & Hst'); try assumption.
  - right. rewrite <- Hlist. intros x Hx. injection Hx as <-. exact Hshared.
  - unfold Iter.parse_fuel. destruct Hon as (_ & -> & _).
    pose proof wf_length as Hlen. rewrite E in Hlen.
    change (em :: mid ++ rest) with ((em :: mid) ++ rest) in Hlen.
    rewrite Hseg in Hlen. rewrite !length_app in Hlen. lia.
  - exists it'. repeat split; try apply Hpos; congruence.
Qed.

Lemma Prev_step l1 e' e l2 it :
  es = l1 ++ e' :: e :: l2 ->
  positioned data limit n it e ->
  exists it',
    Iter.Prev it = Some it'
    /\ positioned data limit n it' e'
    /\ Iter.comparator_ it' = Iter.comparator_ it
    /\ Iter.status_ it' = Iter.status_ it.
Proof.
  intros E Hpos.
  assert (E2 : es = (l1 ++ [e']) ++ e :: l2) by (rewrite <- app_assoc; exact E).
  assert (Hin : In e es) by (rewrite E2; apply in_or_app; right; left; reflexivity).
  destruct (wf_look _ _ _ E2) as (_ & Hafter & _ & He3 & _ & prev' & _ & _ & Hlast).
  destruct (Hlast l1 e' eq_refl) as [_ Hoff].
  destruct (wf_look _ _ _ E) as (Hbefore' & _ & He'0 & He'3 & _).
  pose proof Hpos as (Hon & (Hcur & _) & _).
  pose proof Hon as (Hdata & Hlim & Hnum).
  pose proof (positioned_index it e Hpos) as Hri.
  assert (Hgrp : forall j, Iter.GetRestartPoint it j = restart_point data limit j).
  { intros j. unfold Iter.GetRestartPoint, restart_point.
    rewrite Hdata, Hlim. reflexivity. }
  destruct (Prev_scan_some it (Iter.current_ it) (Z.to_nat (Iter.restart_index_ it)))
    as (j & Hscan & Hjr & Hjlt & _).
  { rewrite Hgrp, (wf_first _ _ _ _ wf), Hcur. lia. }
  unfold Iter.Prev. rewrite (positioned_valid it e Hpos Hin), Hscan.
  destruct (restart_entry j) as (lp & em & lb0 & E0 & Hem & Hs); [lia| |].
  { rewrite E. destruct l1; discriminate. }
  rewrite Hgrp, Hcur in Hjlt.
  assert (Hmem : In em (l1 ++ [e'])).
  { assert (H : In em es) by (rewrite E0; apply in_or_app; right; left; reflexivity).
    rewrite E2 in H. apply in_app_or in H. destruct H as [H|[H|H]].
    - exact H.
    - subst em. lia.
    - specialize (Hafter em H). lia. }
  apply in_split in Hmem. destruct Hmem as (lp' & mid & Hsplit).
  destruct (list_last (em :: mid) ltac:(discriminate)) as (s' & x & Hseg).
  assert (Hs' : l1 = lp' ++ s' /\ e' = x).
  { apply app_inj_tail. rewrite <- app_assoc, <- Hseg. exact Hsplit. }
  destruct Hs' as [-> <-].
  apply (replay_from_restart j lp' em mid e' (e :: l2)); try assumption.
  - lia.
  - rewrite E2, Hsplit, <- app_assoc. reflexivity.
  - exists s'. split; [exact Hseg|]. intros y Hy.
    assert (e_next y <= e_off e') by (apply Hbefore'; apply in_or_app; auto).
    lia.
  - lia.
Qed.

Lemma Prev_first e l2 it :
  es = e :: l2 ->
  positioned data limit n it e ->
  Iter.Prev it = Some (Iter.mark_invalid it).
Proof.
  intros E Hpos.
  assert (Hin : In e es) by (rewrite E; left; reflexivity).
  destruct (wf_look [] e l2 E) as (_ & _ & _ & _ & _ & prev' & _ & Hfirst & _).
  destruct (Hfirst eq_refl) as [_ Hoff].
  unfold Iter.Prev. rewrite (positioned_valid it e Hpos Hin).
  rewrite Prev_scan_none; [reflexivity|].
  intros j _. destruct Hpos as (_ & (Hcur & _) & _). rewrite Hcur, Hoff.
  apply DecodeFixed32_range.
Qed.

Lemma SeekToLast_entry la e it :
  es = la ++ [e] ->
  on_block data limit n it ->
  exists it',
    Iter.SeekToLast it = Some it'
    /\ positioned data limit n it' e
    /\ Iter.comparator_ it' = Iter.comparator_ it
    /\ Iter.status_ it' = Iter.status_ it.
Proof.
  intros E Hon. pose proof (wf_num _ _ _ _ wf) as Hn.
  pose proof wf_num_fits as Hnfit.
  pose proof Hon as (_ & Hlim & Hnum).
  unfold Iter.SeekToLast. rewrite Hnum, Hlim.
  rewrite (wrap32_small (n - 1)) by lia.
  destruct (restart_entry (n - 1)) as (lp & em & lb0 & E0 & Hem & Hs); [lia| |].
  { rewrite E. destruct la; discriminate. }
  destruct (list_last (em :: lb0) ltac:(discriminate)) as (s' & x & Hseg).
  assert (Hs' : la = lp ++ s' /\ e = x).
  { apply app_inj_tail. rewrite <- app_assoc, <- Hseg, <- E0, <- E. reflexivity. }
  destruct Hs' as [-> <-].
  destruct (wf_look _ _ _ E) as (Hbefore & _ & _ & He3 & _).
  apply (replay_from_restart (n - 1) lp em lb0 e []); try assumption.
  - lia.
  - rewrite app_nil_r. exact E0.
  - exists s'. split; [exact Hseg|]. intros y Hy.
    assert (e_next y <= e_off e) by (apply Hbefore; apply in_or_app; auto).
    rewrite <- (wf_last_next _ _ E). lia.
  - rewrite (wf_last_next _ _ E). lia.
Qed.

Lemma SeekToLast_empty it :
  es = [] ->
  on_block data limit n it ->
  exists it',
    Iter.SeekToLast it = Some it'
    /\ Iter.Valid it' = false
    /\ Iter.status_ it' = Iter.status_ it.
Proof.
  intros E Hon. pose proof Hon as (_ & Hlim & Hnum).
  destruct (SeekToRestartPoint_facts (wrap32 (Iter.num_restarts_ it - 1)) it Hon)
    as (Hon0 & Hnext & _ & _ & _ & Hst).
  unfold Iter.SeekToLast, Iter.parse_fuel. cbn [Iter.parse_while].
  unfold Iter.ParseNextKey. rewrite Hnext.
  destruct Hon0 as (_ & -> & _). rewrite (wf_empty_limit E).
  replace (0 <=? _) with true.
  2:{ symmetry. apply Z.leb_le. apply DecodeFixed32_range. }
  eexists. split; [reflexivity|].
  destruct (mark_invalid_facts
              (Iter.SeekToRestartPoint (wrap32 (Iter.num_restarts_ it - 1)) it))
    as [Hv Hs].
  split; [exact Hv|]. rewrite Hs. exact Hst.
Qed.

End Walk.

(** ** Forward and backward iteration *)

Lemma collect_invalid move fuel it :
  Iter.Valid it = false -> collect move fuel it = Some ([], it).
Proof. intros H. destruct fuel; cbn [collect]; rewrite H; reflexivity. Qed.

Section Collect.

Variables (data : list byte) (limit n : Z) (es : list Entry).
Hypothesis wf : WellFormed data limit n es.

Lemma positioned_pair it e :
  positioned data limit n it e -> current_pair it = entry_pair data e.
Proof.
  intros ((Hdata & _) & (_ & Hk & Hv) & _).
  unfold current_pair, entry_pair. rewrite Hdata, Hk, Hv. reflexivity.
Qed.

Lemma collect_Next :
  forall lb la e it fuel,
    es = la ++ e :: lb ->
    positioned data limit n it e ->
    (length lb < fuel)%nat ->
    exists final,
      collect Iter.Next fuel it = Some (map (entry_pair data) (e :: lb), final)
      /\ Iter.Valid final = false
      /\ Iter.status_ final = Iter.status_ it.
Proof.
  induction lb as [|e2 lb IH]; intros la e it fuel E Hpos Hfuel;
    (destruct fuel as [|fuel]; [cbn in Hfuel; lia|]);
    assert (Hin : In e es) by (rewrite E; apply in_or_app; right; left; reflexivity);
    cbn [collect]; rewrite (positioned_valid data limit n es wf it e Hpos Hin).
  - rewrite (Next_last data limit n es wf la e it E Hpos).
    destruct (mark_invalid_facts it) as [Hv Hs].
    rewrite (collect_invalid _ _ _ Hv), (positioned_pair it e Hpos).
    eexists. split; [reflexivity|]. split; assumption.
  - destruct (Next_step data limit n es wf la e e2 lb it E Hpos)
      as (it' & Hnext & Hpos' & _ & Hst).
    rewrite Hnext.
    destruct (IH (la ++ [e]) e2 it' fuel) as (final & Hc & Hv & Hs).
    + rewrite <- app_assoc. exact E.
    + exact Hpos'.
    + cbn [length] in Hfuel. lia.
    + rewrite Hc, (positioned_pair it e Hpos).
      exists final. split; [reflexivity|]. split; [exact Hv|congruence].
Qed.

Lemma collect_Prev :
  forall la e lb it fuel,
    es = la ++ e :: lb ->
    positioned data limit n it e ->
    (length la < fuel)%nat ->
    exists final,
      collect Iter.Prev fuel it
      = Some (map (entry_pair data) (e :: rev la), final)
      /\ Iter.Valid final = false
      /\ Iter.status_ final = Iter.status_ it.
Proof.
  induction la as [|e' la IH] using rev_ind; intros e lb it fuel E Hpos Hfuel;
    (destruct fuel as [|fuel]; [cbn in Hfuel; lia|]);
    assert (Hin : In e es) by (rewrite E; apply in_or_app; right; left; reflexivity);
    cbn [collect]; rewrite (positioned_valid data limit n es wf it e Hpos Hin).
  - rewrite (Prev_first data limit n es wf e lb it E Hpos).
    destruct (mark_invalid_facts it) as [Hv Hs].
    rewrite (collect_invalid _ _ _ Hv), (positioned_pair it e Hpos).
    eexists. split; [reflexivity|]. split; assumption.
  - rewrite <- app_assoc in E. cbn [app] in E.
    destruct (Prev_step data limit n es wf la e' e lb it E Hpos)
      as (it' & Hprev & Hpos' & _ & Hst).
    rewrite Hprev.
    destruct (IH e' (e :: lb) it' fuel E Hpos') as (final & Hc & Hv & Hs).
    + rewrite length_app in Hfuel. cbn [length] in Hfuel. lia.
    + rewrite Hc, (positioned_pair it e Hpos), rev_app_distr.
      exists final. split; [reflexivity|]. split; [exact Hv|congruence].
Qed.

Lemma run_app ops1 ops2 it :
  Iter.run (ops1 ++ ops2) it
  = match Iter.run ops1 it with
    | None => None
    | Some it' => Iter.run ops2 it'
    end.
Proof.
  revert it. induction ops1 as [|op ops1 IH]; intros it; cbn [app Iter.run].
  - reflexivity.
  - destruct (Iter.step op it); [apply IH|reflexivity].
Qed.

(** [SeekToFirst] and one [Next] per entry passed reach any entry. *)
Lemma walk_forward :
  forall la e lb it,
    es = la ++ e :: lb ->
    on_block data limit n it ->
    exists c,
      Iter.run (Iter.NavSeekToFirst :: repeat Iter.NavNext (length la)) it
      = Some c
      /\ positioned data limit n c e
      /\ Iter.status_ c = Iter.status_ it.
Proof.
  induction la as [|x la IH] using rev_ind; intros e lb it E Hon.
  - cbn [length repeat Iter.run Iter.step].
    destruct (SeekToFirst_entry data limit n es wf e lb it E Hon)
      as (c & Hs & Hpos & _ & Hst & _).
    rewrite Hs. exists c. auto.
  - rewrite <- app_assoc in E. cbn [app] in E.
    destruct (IH x (e :: lb) it E Hon) as (c & Hrun & Hpos & Hst).
    destruct (Next_step data limit n es wf la x e lb c E Hpos)
      as (c' & Hnext & Hpos' & _ & Hst').
    rewrite length_app, Nat.add_comm. cbn [length Nat.add repeat].
    rewrite repeat_cons.
    change (Iter.NavSeekToFirst :: repeat Iter.NavNext (length la) ++ [Iter.NavNext])
      with ((Iter.NavSeekToFirst :: repeat Iter.NavNext (length la))
            ++ [Iter.NavNext]).
    rewrite run_app, Hrun. cbn [Iter.run Iter.step]. rewrite Hnext.
    exists c'. split; [reflexivity|]. split; [exact Hpos'|congruence].
Qed.

End Collect.

(** C5.  On a well-formed block, forward iteration ([SeekToFirst], then
    [Next] until the cursor is invalid) visits the (key, value) pairs of
    the entries in order; backward iteration ([SeekToLast], then [Prev]
    until the cursor is invalid) visits exactly the reverse, and so does
    [Prev] repeated from the last entry as forward iteration reaches it,
    with the [restart_index_] it has there.  All end invalid without
    touching the status.  [Prev] on an entry ends invalid exactly when no
    entry precedes it; otherwise it replays from the nearest restart point
    strictly before the entry and lands on the entry that ends where the
    starting one begins, with a [restart_index_] from which the next
    [Prev] finds its nearest restart point again. *)
Theorem Prev_reverse_symmetry (it : Iter.t) (es : list Entry) :
  WellFormed (Iter.data_ it) (Iter.restarts_ it) (Iter.num_restarts_ it) es ->
  (exists pairs final_forward final_backward,
     pairs = map (entry_pair (Iter.data_ it)) es
     /\ collect_forward it = Some (pairs, final_forward)
     /\ collect_backward it = Some (rev pairs, final_backward)
     /\ Iter.Valid final_forward = false
     /\ Iter.status final_forward = Iter.status it
     /\ Iter.Valid final_backward = false
     /\ Iter.status final_backward = Iter.status it
     /\ forall la e, es = la ++ [e] ->
          exists c final,
            Iter.run (Iter.NavSeekToFirst :: repeat Iter.NavNext (length la)) it
            = Some c
            /\ Iter.Valid c = true
            /\ positioned (Iter.data_ it) (Iter.restarts_ it)
                 (Iter.num_restarts_ it) c e
            /\ collect Iter.Prev (Iter.parse_fuel it) c = Some (rev pairs, final)
            /\ Iter.Valid final = false
            /\ Iter.status final = Iter.status it)
  /\ (forall la e lb c,
        es = la ++ e :: lb ->
        positioned (Iter.data_ it) (Iter.restarts_ it) (Iter.num_restarts_ it) c e ->
        exists c',
          Iter.Prev c = Some c'
          /\ Iter.status c' = Iter.status c
          /\ (Iter.Valid c' = false <-> la = [])
          /\ (forall la' e', la = la' ++ [e'] ->
                positioned (Iter.data_ it) (Iter.restarts_ it)
                  (Iter.num_restarts_ it) c' e'
                /\ Iter.key c' = Some (e_key e')
                /\ Iter.value c' = Some (e_value e')
                /\ e_next e' = e_off e
                /\ exists j,
                     0 <= j < Iter.num_restarts_ it
                     /\ restart_point (Iter.data_ it) (Iter.restarts_ it) j
                        < e_off e
                     /\ (forall j', j < j' < Iter.num_restarts_ it ->
                           e_off e
                           <= restart_point (Iter.data_ it) (Iter.restarts_ it) j')
                     /\ Iter.Prev c
                        = Iter.parse_while (Iter.parse_fuel c) (e_off e)
                            (Iter.SeekToRestartPoint j c))).
Proof.
  intros wf.
  set (data := Iter.data_ it) in *. set (limit := Iter.restarts_ it) in *.
  set (n := Iter.num_restarts_ it) in *.
  assert (Hon : on_block data limit n it) by (repeat split).
  split.
  - exists (map (entry_pair data) es). unfold collect_forward, collect_backward.
    destruct es as [|e0 rest] eqn:E.
    + rewrite (SeekToFirst_empty data limit n [] wf it eq_refl Hon).
      destruct (SeekToLast_empty data limit n [] wf it eq_refl Hon)
        as (itb & Hlast & Hvb & Hsb).
      rewrite Hlast.
      destruct (mark_invalid_facts (Iter.SeekToRestartPoint 0 it)) as [Hv Hs].
      rewrite (collect_invalid _ _ _ Hv), (collect_invalid _ _ _ Hvb).
      do 2 eexists. repeat split; try assumption.
      intros la e H. destruct la; discriminate.
    + destruct (SeekToFirst_entry data limit n _ wf e0 rest it eq_refl Hon)
        as (itf & Hfirst & Hposf & _ & Hsf & _).
      destruct (list_last (e0 :: rest) ltac:(discriminate)) as (la & el & El).
      rewrite El in wf.
      destruct (SeekToLast_entry data limit n _ wf la el it eq_refl Hon)
        as (itb & Hlast & Hposb & _ & Hsb).
      rewrite <- El in wf.
      rewrite Hfirst, Hlast.
      destruct (collect_Next data limit n _ wf rest [] e0 itf (Iter.parse_fuel it))
        as (ff & Hcf & Hvf & Hstf); [reflexivity|exact Hposf| |].
      { pose proof (wf_length data limit n _ wf) as Hlen. cbn [length] in Hlen.
        unfold Iter.parse_fuel. fold limit. lia. }
      destruct (collect_Prev data limit n _ wf la el [] itb (Iter.parse_fuel it))
        as (fb & Hcb & Hvb & Hstb); [exact El|exact Hposb| |].
      { pose proof (wf_length data limit n _ wf) as Hlen. rewrite El in Hlen.
        rewrite length_app in Hlen. cbn [length] in Hlen.
        unfold Iter.parse_fuel. fold limit. lia. }
      rewrite Hcf, Hcb. exists ff, fb.
      assert (Hrev : map (entry_pair data) (el :: rev la)
                     = rev (map (entry_pair data) (e0 :: rest))).
      { rewrite <- map_rev, El, rev_app_distr. reflexivity. }
      split; [reflexivity|]. split; [reflexivity|]. split.
      { f_equal. f_equal. exact Hrev. }
      unfold Iter.status.
      split; [exact Hvf|]. split; [congruence|]. split; [exact Hvb|].
      split; [congruence|].
      intros la' e' El'. rewrite El in El'. apply app_inj_tail in El'.
      destruct El' as [<- <-].
      destruct (walk_forward data limit n _ wf la el [] it El Hon)
        as (c & Hrun & Hposc & Hstc).
      destruct (collect_Prev data limit n _ wf la el [] c (Iter.parse_fuel it))
        as (fc & Hcc & Hvc & Hstc'); [exact El|exact Hposc| |].
      { pose proof (wf_length data limit n _ wf) as Hlen. rewrite El in Hlen.
        rewrite length_app in Hlen. cbn [length] in Hlen.
        unfold Iter.parse_fuel. fold limit. lia. }
      exists c, fc. split; [exact Hrun|]. split.
      { apply (positioned_valid data limit n _ wf c el Hposc).
        rewrite El. apply in_or_app. right. left. reflexivity. }
      split; [exact Hposc|]. split; [rewrite Hcc, Hrev; reflexivity|].
      split; [exact Hvc|congruence].
  - intros la e lb c E Hpos.
    assert (Hin : In e es) by (rewrite E; apply in_or_app; right; left; reflexivity).
    destruct la as [|x la0] using rev_ind.
    + rewrite (Prev_first data limit n es wf e lb c E Hpos).
      destruct (mark_invalid_facts c) as [Hv Hs].
      eexists. split; [reflexivity|]. split; [exact Hs|]. split; [tauto|].
      intros la' e' H. destruct la'; discriminate.
    + clear IHla0. rewrite <- app_assoc in E. cbn [app] in E.
      destruct (Prev_step data limit n es wf la0 x e lb c E Hpos)
        as (c' & Hprev & Hpos' & _ & Hst).
      assert (Hinx : In x es) by (rewrite E; apply in_or_app; right; left; reflexivity).
      pose proof (positioned_valid data limit n es wf c' x Hpos' Hinx) as Hv.
      exists c'. split; [exact Hprev|]. split; [exact Hst|]. split.
      * split; [congruence|]. intros H. destruct la0; discriminate.
      * intros la' e' H. apply app_inj_tail in H. destruct H as [_ <-].
        split; [exact Hpos'|].
        unfold Iter.key, Iter.value. rewrite Hv.
        destruct Hpos' as (_ & (_ & Hk & Hval) & _). rewrite Hk, Hval.
        split; [reflexivity|]. split; [reflexivity|]. split.
        -- assert (E2 : es = (la0 ++ [x]) ++ e :: lb)
             by (rewrite <- app_assoc; exact E).
           destruct (wf_look data limit n es wf _ _ _ E2)
             as (_ & _ & _ & _ & _ & prev' & _ & _ & Hlast).
           destruct (Hlast la0 x eq_refl) as [_ Hoff]. symmetry. exact Hoff.
        -- exact (Prev_nearest_restart data limit n es wf la0 x e lb c E Hpos).
Qed.

(** ** Seek *)

Lemma sorted_split cmp la a lb :
  sorted_keys cmp (la ++ a :: lb) ->
  (forall x, In x la -> cmp (e_key x) (e_key a) < 0)
  /\ (forall x, In x lb -> cmp (e_key a) (e_key x) < 0).
Proof.
  induction la as [|y la IH]; cbn [app sorted_keys]; intros [Hy Hrest].
  - split; [intros x []|exact Hy].
  - destruct (IH Hrest) as [H1 H2]. split; [|exact H2].
    intros x [<-|Hx]; [|exact (H1 x Hx)].
    apply Hy. apply in_or_app. right. left. reflexivity.
Qed.

Section Seeking.

Variables (data : list byte) (limit n : Z) (es : list Entry).
Variables (cmp : Comparator) (target : list byte).
Hypothesis wf : WellFormed data limit n es.

Lemma Seek_search_collapses fuel :
  forall left right it,
    on_block data limit n it ->
    Iter.comparator_ it = cmp ->
    0 <= left <= right -> right < n ->
    (Z.to_nat (right - left) <= fuel)%nat ->
    below_target cmp data limit es target left ->
    exists index,
      snd (Iter.Seek_search fuel it target left right) = Iter.Collapsed index
      /\ 0 <= index < n /\ below_target cmp data limit es target index.
Proof.
  pose proof (wf_limit_fits data limit n es wf) as Hfit.
  pose proof (wf_num_fits data limit n es wf) as Hnfit.
  induction fuel as [|fuel IH]; intros left right it Hon Hcmp Hlr Hr Hfuel Hb;
    cbn [Iter.Seek_search]; destruct (left <? right) eqn:Hlt;
    try (apply Z.ltb_lt in Hlt; lia);
    try (apply Z.ltb_ge in Hlt; cbn [snd]; exists left;
         split; [reflexivity|split; [lia|exact Hb]]).
  apply Z.ltb_lt in Hlt.
  rewrite (wrap32_small (left + right + 1)) by lia.
  set (mid := (left + right + 1) / 2).
  assert (Hmid : left < mid <= right).
  { subst mid.
    pose proof (Z.div_mod (left + right + 1) 2 ltac:(lia)).
    pose proof (Z.mod_pos_bound (left + right + 1) 2 ltac:(lia)). lia. }
  destruct (wf_restart_entry _ _ _ _ wf mid ltac:(lia)) as (e & Hin & Hoff & Hs).
  destruct (chain_In data limit Hfit es 0 [] e ltac:(lia)
              (wf_chain data limit n es wf) Hin) as [Hd Hk].
  pose proof Hon as (Hdata & Hlim & Hnum).
  unfold Iter.GetRestartPoint. rewrite Hdata, Hlim.
  fold (restart_point data limit mid). rewrite <- Hoff, Hd, Hs.
  cbn [Z.eqb negb snd]. unfold Iter.Compare. rewrite Hcmp, <- (Hk Hs).
  destruct (cmp (e_key e) target <? 0) eqn:Hc.
  - apply Z.ltb_lt in Hc. apply IH; try assumption; try lia.
    right. exists e. auto.
  - rewrite (wrap32_small (mid - 1)) by lia.
    apply IH; try assumption; lia.
Qed.

(** The linear search stops on the first entry of the run that is not below
    the target. *)
Lemma Seek_scan_chain :
  forall seg off prev it fuel,
    on_block data limit n it ->
    Iter.comparator_ it = cmp ->
    0 <= off ->
    chain data limit off prev seg ->
    Iter.NextEntryOffset it = Some off ->
    (Iter.key_ it = prev
     \/ forall x, hd_error seg = Some x -> shared (e_hdr x) = 0) ->
    0 <= Iter.restart_index_ it < n ->
    (length seg < fuel)%nat ->
    exists it',
      snd (Iter.Seek_scan fuel target it) = Some it'
      /\ Iter.status_ it' = Iter.status_ it
      /\ ((exists s' e rest,
             seg = s' ++ e :: rest
             /\ (forall x, In x s' -> cmp (e_key x) target < 0)
             /\ 0 <= cmp (e_key e) target
             /\ positioned data limit n it' e
             /\ Iter.Valid it' = true)
          \/ ((forall x, In x seg -> cmp (e_key x) target < 0)
              /\ Iter.Valid it' = false)).
Proof.
  induction seg as [|e seg IH];
    intros off prev it fuel Hon Hcmp Hoff Hc Hnext Hkey Hri Hfuel;
    (destruct fuel as [|fuel]; [cbn in Hfuel; lia|]); cbn [Iter.Seek_scan].
  - assert (off = limit) as -> by (inversion Hc; reflexivity).
    rewrite (ParseNextKey_end data limit n it Hon Hnext). cbn [snd].
    destruct (mark_invalid_facts it) as [Hv Hs].
    eexists. split; [reflexivity|]. split; [exact Hs|].
    right. split; [intros x []|exact Hv].
  - destruct (ParseNextKey_chain data limit n es wf it off prev e seg
                Hon Hoff Hc Hnext)
      as (it1 & Hp & Hpos & Hcmp1 & Hst & Hn1 & Hv1); [|exact Hri|].
    { destruct Hkey as [Hk|Hk]; [left; exact Hk|right; apply Hk; reflexivity]. }
    rewrite Hp. unfold Iter.Compare. rewrite Hcmp1, Hcmp.
    pose proof Hpos as (Hon1 & (_ & Hk1 & _) & (Hri1 & _)).
    rewrite Hk1.
    destruct (0 <=? cmp (e_key e) target) eqn:Hge; cbn [snd].
    + apply Z.leb_le in Hge. exists it1. split; [reflexivity|].
      split; [exact Hst|]. left. exists [], e, seg.
      split; [reflexivity|]. split; [intros x []|]. auto.
    + apply Z.leb_gt in Hge.
      destruct (chain_head data limit (wf_limit_fits data limit n es wf)
                  _ _ _ _ Hoff Hc)
        as (_ & _ & _ & _ & _ & Hkp & _ & Hns & Hvl & _ & Hrest).
      destruct (IH (e_next e) (e_key e) it1 fuel) as (it' & Hs' & Hst' & Hres);
        try assumption.
      * congruence.
      * unfold e_next. lia.
      * left. exact Hk1.
      * destruct Hon1 as (_ & _ & Hnum1). rewrite Hnum1 in Hri1. exact Hri1.
      * cbn [length] in Hfuel. lia.
      * exists it'. split; [exact Hs'|]. split; [congruence|].
        destruct Hres as [(s' & e1 & rest & -> & Hlt & Hge1 & Hpos1 & Hv)
                         |[Hall Hv]].
        -- left. exists (e :: s'), e1, rest. split; [reflexivity|].
           split; [|auto]. intros x [<-|Hx]; [exact Hge|exact (Hlt x Hx)].
        -- right. split; [|exact Hv].
           intros x [<-|Hx]; [exact Hge|exact (Hall x Hx)].
Qed.

Hypothesis ord : ComparatorOrder cmp.
Hypothesis sorted : sorted_keys cmp es.

Lemma Seek_lands it :
  on_block data limit n it ->
  Iter.comparator_ it = cmp ->
  exists it',
    Iter.Seek target it = Some it'
    /\ Iter.status_ it' = Iter.status_ it
    /\ ((exists before e after,
           es = before ++ e :: after
           /\ (forall x, In x before -> cmp (e_key x) target < 0)
           /\ 0 <= cmp (e_key e) target
           /\ positioned data limit n it' e
           /\ Iter.Valid it' = true)
        \/ ((forall x, In x es -> cmp (e_key x) target < 0)
            /\ Iter.Valid it' = false)).
Proof.
  intros Hon Hcmp.
  pose proof (wf_limit_fits data limit n es wf) as Hfit.
  pose proof (wf_num_fits data limit n es wf) as Hnfit.
  pose proof (wf_num _ _ _ _ wf) as Hn.
  pose proof (wf_chain data limit n es wf) as Hchain.
  pose proof Hon as (Hdata & Hlim & Hnum).
  unfold Iter.Seek, Iter.Seek_traced. rewrite Hnum.
  rewrite (wrap32_small (n - 1)) by lia.
  destruct (Seek_search_collapses (Z.to_nat n) 0 (n - 1) it Hon Hcmp)
    as (index & Hres & Hidx & Hbelow); try lia.
  { left. reflexivity. }
  rewrite Hres. cbn [snd].
  destruct (SeekToRestartPoint_facts data limit n index it Hon)
    as (Hon0 & Hnext & Hkey & Hri & Hcmp0 & Hst0).
  destruct (list_nil_or es) as [E|E].
  - assert (index = 0) as ->.
    { destruct Hbelow as [H|(e & Hin & _)]; [exact H|].
      rewrite E in Hin. destruct Hin. }
    rewrite (wf_first _ _ _ _ wf) in Hnext. rewrite E in Hchain.
    destruct (Seek_scan_chain [] 0 [] (Iter.SeekToRestartPoint 0 it)
                (Iter.parse_fuel it))
      as (it' & Hs & Hst & Hres'); try assumption; try lia.
    + left. exact Hkey.
    + unfold Iter.parse_fuel. cbn. lia.
    + exists it'. split; [exact Hs|]. split; [congruence|].
      right. destruct Hres' as [(s' & e1 & rest & Eseg & _)|[_ Hv]].
      * destruct s'; discriminate.
      * split; [|exact Hv]. intros x Hx. rewrite E in Hx. destruct Hx.
  - destruct (restart_entry data limit n es wf index Hidx E)
      as (la & em & lb & Esplit & Hem & Hshared).
    destruct (wf_look data limit n es wf la em lb Esplit)
      as (Hbefore & _ & Hem0 & Hem3 & _ & prev' & Hc & _).
    rewrite <- Hem in Hnext.
    destruct (Seek_scan_chain (em :: lb) (e_off em) prev'
                (Iter.SeekToRestartPoint index it) (Iter.parse_fuel it))
      as (it' & Hs & Hst & Hres'); try assumption.
    + right. intros x Hx. injection Hx as <-. exact Hshared.
    + pose proof (wf_length data limit n es wf) as Hlen.
      rewrite Esplit, length_app in Hlen. unfold Iter.parse_fuel.
      rewrite Hlim. lia.
    + assert (Hla : forall x, In x la -> cmp (e_key x) target < 0).
      { intros x Hx. destruct Hbelow as [->|(e & Hin & Hoff & Hlt)].
        - specialize (Hbefore x Hx).
          assert (In x es) as Hxin by (rewrite Esplit; apply in_or_app; auto).
          destruct (chain_bounds data limit Hfit es 0 [] ltac:(lia) Hchain)
            as [_ Hall].
          specialize (Hall x Hxin).
          rewrite (wf_first _ _ _ _ wf) in Hem. lia.
        - assert (e = em) as ->.
          { apply (chain_offset_inj data limit Hfit es 0 []); try assumption.
            - lia.
            - rewrite Esplit. apply in_or_app. right. left. reflexivity.
            - congruence. }
          rewrite Esplit in sorted.
          destruct (sorted_split cmp la em lb sorted) as [Hlt' _].
          exact (cmp_trans cmp ord _ _ _ (Hlt' x Hx) Hlt). }
      exists it'. split; [exact Hs|]. split; [congruence|].
      destruct Hres' as [(s' & e1 & rest & Eseg & Hlt & Hge & Hpos1 & Hv)
                        |[Hall Hv]].
      * left. exists (la ++ s'), e1, rest.
        split; [rewrite Esplit, Eseg, <- app_assoc; reflexivity|].
        split; [|auto]. intros x Hx. apply in_app_or in Hx.
        destruct Hx as [Hx|Hx]; [exact (Hla x Hx)|exact (Hlt x Hx)].
      * right. split; [|exact Hv]. intros x Hx. rewrite Esplit in Hx.
        apply in_app_or in Hx.
        destruct Hx as [Hx|Hx]; [exact (Hla x Hx)|exact (Hall x Hx)].
Qed.

End Seeking.

(** C1.  On a well-formed block whose keys increase under the comparator,
    [Seek target] leaves the cursor on the first entry whose key is not
    below [target], or invalid when every key is below it; the status is not
    touched; and a target equal to the key of an entry lands on that
    entry. *)
Theorem Seek_correct (it : Iter.t) (es : list Entry) (target : list byte) :
  WellFormed (Iter.data_ it) (Iter.restarts_ it) (Iter.num_restarts_ it) es ->
  ComparatorOrder (Iter.comparator_ it) ->
  sorted_keys (Iter.comparator_ it) es ->
  exists it',
    Iter.Seek target it = Some it'
    /\ Iter.status it' = Iter.status it
    /\ ((exists before e after,
           es = before ++ e :: after
           /\ (forall x, In x before ->
                 Iter.comparator_ it (e_key x) target < 0)
           /\ 0 <= Iter.comparator_ it (e_key e) target
           /\ Iter.Valid it' = true
           /\ at_entry it' e)
        \/ ((forall x, In x es -> Iter.comparator_ it (e_key x) target < 0)
            /\ Iter.Valid it' = false))
    /\ (forall e, In e es -> e_key e = target ->
          Iter.Valid it' = true /\ at_entry it' e).
Proof.
  intros wf ord sorted.
  destruct (Seek_lands _ _ _ es (Iter.comparator_ it) target wf ord sorted it)
    as (it' & Hs & Hst & Hres); [repeat split|reflexivity|].
  exists it'. split; [exact Hs|]. split; [exact Hst|]. split.
  - destruct Hres as [(before & e & after & E & Hlt & Hge & Hpos & Hv)|H].
    + left. exists before, e, after. repeat split; try assumption; apply Hpos.
    + right. exact H.
  - intros e Hin Hkey.
    pose proof (cmp_refl _ ord target) as Hrefl.
    destruct Hres as [(before & e1 & after & E & Hlt & Hge & Hpos & Hv)|[Hall _]].
    + assert (e = e1) as ->.
      { rewrite E in Hin, sorted.
        destruct (sorted_split _ _ _ _ sorted) as [_ Hafter].
        apply in_app_or in Hin. destruct Hin as [Hin|[Hin|Hin]].
        - specialize (Hlt e Hin). rewrite Hkey in Hlt. lia.
        - congruence.
        - specialize (Hafter e Hin). rewrite Hkey in Hafter. lia. }
      split; [exact Hv|apply Hpos].
    + specialize (Hall e Hin). rewrite Hkey in Hall. lia.
Qed.

(** ** A worked block *)

Lemma bytewise_compare_refl a : bytewise_compare a a = 0.
Proof.
  induction a as [|x a IH]; cbn [bytewise_compare]; [reflexivity|].
  rewrite Z.sub_diag. exact IH.
Qed.

Lemma bytewise_compare_trans :
  forall a b c,
    bytewise_compare a b < 0 -> bytewise_compare b c < 0 ->
    bytewise_compare a c < 0.
Proof.
  induction a as [|x a IH]; intros [|y b] [|z c]; cbn [bytewise_compare];
    try lia.
  destruct (Z.eqb_spec (Z.of_N (to_N x) - Z.of_N (to_N y)) 0) as [Hxy|Hxy];
    destruct (Z.eqb_spec (Z.of_N (to_N y) - Z.of_N (to_N z)) 0) as [Hyz|Hyz];
    destruct (Z.eqb_spec (Z.of_N (to_N x) - Z.of_N (to_N z)) 0) as [Hxz|Hxz];
    try lia.
  apply IH.
Qed.

Lemma bytewise_compare_order : ComparatorOrder bytewise_compare.
Proof.
  split; [exact bytewise_compare_refl|exact bytewise_compare_trans].
Qed.

Lemma block_two_runs_well_formed :
  WellFormed block_two_runs 20 2 entries_two_runs.
Proof.
  split.
  - lia.
  - lia.
  - reflexivity.
  - vm_compute. reflexivity.
  - vm_compute. reflexivity.
  - reflexivity.
  - intros j H0 H1. assert (j = 0) as -> by lia. vm_compute. reflexivity.
  - intros j Hj. assert (j = 1) as -> by lia.
    exists (mkEntry 10 (mkDecoded 13 0 1 1) (bytes_of [98])).
    split; [right; right; left; reflexivity|]. split; reflexivity.
Qed.

Lemma entries_two_runs_sorted : sorted_keys bytewise_compare entries_two_runs.
Proof.
  cbn [sorted_keys entries_two_runs].
  repeat split; intros e' Hin; cbn [In] in Hin;
    repeat (destruct Hin as [<-|Hin]; [vm_compute; reflexivity|]);
    destruct Hin.
Qed.

Lemma Seek_correct_witness :
  exists it',
    Iter.Seek (bytes_of [98]) (fresh bytewise_compare block_two_runs 20 2)
    = Some it'
    /\ Iter.Valid it' = true
    /\ Iter.current_ it' = 10
    /\ Iter.key_ it' = bytes_of [98].
Proof.
  destruct (Seek_correct (fresh bytewise_compare block_two_runs 20 2)
              entries_two_runs (bytes_of [98])
              block_two_runs_well_formed bytewise_compare_order
              entries_two_runs_sorted)
    as (it' & Hs & _ & _ & Heq).
  destruct (Heq (mkEntry 10 (mkDecoded 13 0 1 1) (bytes_of [98])))
    as (Hv & Hcur & Hk & _).
  - right. right. left. reflexivity.
  - reflexivity.
  - exists it'. repeat split; assumption.
Defined.

Lemma Prev_reverse_symmetry_witness :
  exists final_forward final_backward,
    collect_forward (fresh bytewise_compare block_two_runs 20 2)
    = Some ([ (bytes_of [97], bytes_of [49]);
              (bytes_of [97; 98], bytes_of [50]);
              (bytes_of [98], bytes_of [51]);
              (bytes_of [98; 99], bytes_of [52]) ], final_forward)
    /\ collect_backward (fresh bytewise_compare block_two_runs 20 2)
       = Some ([ (bytes_of [98; 99], bytes_of [52]);
                 (bytes_of [98], bytes_of [51]);
                 (bytes_of [97; 98], bytes_of [50]);
                 (bytes_of [97], bytes_of [49]) ], final_backward).
Proof.
  destruct (Prev_reverse_symmetry (fresh bytewise_compare block_two_runs 20 2)
              entries_two_runs block_two_runs_well_formed)
    as [(pairs & ff & fb & Hp & Hf & Hb & _) _].
  exists ff, fb. rewrite Hf, Hb, Hp. split; reflexivity.
Defined.

(** * Further properties of the code *)

(** ** DecodeEntry stays within its bounds *)

Lemma GetVarint32PtrFallback_reads_below_limit data data' limit groups :
  forall p0 shift result,
    (forall i, p0 <= i < limit -> byte_at data i = byte_at data' i) ->
    GetVarint32PtrFallback groups data p0 limit shift result
    = GetVarint32PtrFallback groups data' p0 limit shift result.
Proof.
  induction groups as [|groups IH]; intros p0 shift result Hsame;
    cbn [GetVarint32PtrFallback]; [reflexivity|].
  destruct (p0 <? limit) eqn:Hlt; [|reflexivity].
  apply Z.ltb_lt in Hlt. rewrite <- (Hsame p0) by lia.
  destruct (Z.testbit (byte_at data p0) 7); [|reflexivity].
  apply IH. intros i Hi. apply Hsame. lia.
Qed.

(** X1.  [DecodeEntry] "will not dereference past limit": its result is
    fixed by the bytes at offsets [p] to [limit - 1]; what the buffer holds
    elsewhere does not matter. *)
Theorem DecodeEntry_reads_below_limit (data data' : list byte) (p limit : Z) :
  (forall i, p <= i < limit -> byte_at data i = byte_at data' i) ->
  DecodeEntry data p limit = DecodeEntry data' p limit.
Proof.
  intros Hsame. unfold DecodeEntry.
  destruct (limit - p <? 3) eqn:H3; [reflexivity|].
  apply Z.ltb_ge in H3.
  assert (Hl : DecodeEntry_lengths data p limit = DecodeEntry_lengths data' p limit).
  { unfold DecodeEntry_lengths.
    rewrite <- (Hsame p), <- (Hsame (p + 1)), <- (Hsame (p + 2)) by lia.
    destruct (_ <? 128); [reflexivity|].
    unfold GetVarint32Ptr.
    rewrite <- (GetVarint32PtrFallback_reads_below_limit data data' limit 5 p 0 0 Hsame).
    destruct (GetVarint32PtrFallback 5 data p limit 0 0) as [[p1 v1]|] eqn:E1;
      [|reflexivity].
    apply GetVarint32PtrFallback_advances in E1.
    rewrite <- (GetVarint32PtrFallback_reads_below_limit data data' limit 5 p1 0 0)
      by (intros i Hi; apply Hsame; lia).
    destruct (GetVarint32PtrFallback 5 data p1 limit 0 0) as [[p2 v2]|] eqn:E2;
      [|reflexivity].
    apply GetVarint32PtrFallback_advances in E2.
    rewrite <- (GetVarint32PtrFallback_reads_below_limit data data' limit 5 p2 0 0)
      by (intros i Hi; apply Hsame; lia).
    reflexivity. }
  rewrite Hl. reflexivity.
Qed.

Lemma DecodeEntry_reads_below_limit_witness :
  DecodeEntry block_abc 8 14 = DecodeEntry (firstn 14 block_abc) 8 14.
Proof.
  apply DecodeEntry_reads_below_limit. intros i Hi.
  assert (i = 8 \/ i = 9 \/ i = 10 \/ i = 11 \/ i = 12 \/ i = 13) as H by lia.
  repeat (destruct H as [->|H]; [reflexivity|]). subst i. reflexivity.
Defined.

(** X2.  A successful [DecodeEntry] returns a pointer at least three bytes
    on and not past [limit], with 32-bit lengths; and when the two lengths
    add up to less than 2^32 the key delta and the value it announces lie
    before [limit]. *)
Theorem DecodeEntry_result_in_bounds (data : list byte) (p limit : Z)
    (d : Decoded) :
  0 <= p -> limit < 2 ^ 32 ->
  DecodeEntry data p limit = Some d ->
  p + 3 <= key_ptr d <= limit
  /\ 0 <= shared d < 2 ^ 32
  /\ 0 <= non_shared d < 2 ^ 32
  /\ 0 <= value_length d < 2 ^ 32
  /\ (non_shared d + value_length d < 2 ^ 32 ->
      key_ptr d + non_shared d + value_length d <= limit).
Proof.
  intros Hp Hlim Hd.
  destruct (DecodeEntry_Some data p limit d Hp Hlim Hd)
    as (Hk & Hs & Hns & Hvl & Hsum).
  repeat split; try lia.
  intros Hfit. rewrite wrap32_small in Hsum by lia. lia.
Qed.

Lemma DecodeEntry_result_in_bounds_witness :
  exists d,
    DecodeEntry block_abc 8 14 = Some d
    /\ key_ptr d = 11
    /\ key_ptr d + non_shared d + value_length d <= 14.
Proof.
  exists (mkDecoded 11 2 1 2). split; [reflexivity|]. split; [reflexivity|].
  apply (DecodeEntry_result_in_bounds block_abc 8 14 (mkDecoded 11 2 1 2)).
  - lia.
  - lia.
  - reflexivity.
  - cbn. lia.
Defined.

(** ** Cursors on any block, well-formed or not *)

Lemma ParseNextKey_false_invalid it it' :
  Iter.ParseNextKey it = Some (false, it') ->
  Iter.Valid it' = false
  /\ Iter.current_ it' = Iter.restarts_ it
  /\ Iter.restart_index_ it' = Iter.num_restarts_ it.
Proof.
  intros H. apply ParseNextKey_inv in H.
  destruct H as (c & _ & [(_ & _ & ->) | [(_ & _ & -> & _) | (Hb & _)]]);
    try discriminate;
    unfold Iter.Valid, Iter.mark_invalid, Iter.CorruptionError;
    cbn [Iter.current_ Iter.restarts_ Iter.restart_index_];
    rewrite Z.ltb_irrefl; repeat split.
Qed.

Lemma ParseNextKey_true_basic it it' :
  Iter.ParseNextKey it = Some (true, it') ->
  Iter.Valid it' = true
  /\ Iter.NextEntryOffset it = Some (Iter.current_ it')
  /\ Iter.status_ it' = Iter.status_ it.
Proof.
  intros H. apply ParseNextKey_inv in H.
  destruct H as (c & Hn & [(Hb & _) | [(Hb & _) | (_ & Hlt & d & _ & _ & ->)]]);
    try discriminate.
  unfold Iter.Valid. cbn [Iter.current_ Iter.restarts_ Iter.status_].
  split; [apply Z.ltb_lt; exact Hlt|]. split; [exact Hn|reflexivity].
Qed.



Lemma cursor_invariant_valid it :
  cursor_invariant it -> Iter.Valid it = true ->
  in_range it
  /\ 0 <= Iter.restart_index_ it < Iter.num_restarts_ it
  /\ exists next, Iter.NextEntryOffset it = Some next
                  /\ Iter.current_ it + 3 <= next <= Iter.restarts_ it.
Proof.
  intros (Hr & Hv & _) H. destruct (Hv H) as (_ & (Hri & _) & Hn). auto.
Qed.




Lemma Prev_scan_found it original :
  forall k j,
    Iter.Prev_scan it original k = Some j ->
    0 <= j <= Z.of_nat k /\ Iter.GetRestartPoint it j < original.
Proof.
  induction k as [|k IH]; intros j; cbn [Iter.Prev_scan].
  - destruct (original <=? _) eqn:Hc; [discriminate|].
    apply Z.leb_gt in Hc. intros H. injection H as <-. split; [lia|exact Hc].
  - destruct (original <=? _) eqn:Hc.
    + intros H. apply IH in H. lia.
    + apply Z.leb_gt in Hc. intros H. injection H as <-. split; [lia|exact Hc].
Qed.

Lemma SeekToRestartPoint_in_range j it :
  in_range it -> in_range (Iter.SeekToRestartPoint j it).
Proof. intros H. exact H. Qed.


(** ** Termination *)


(** ** Which way the cursor moves *)


(** Where the [ParseNextKey] loop stops when it stops on an entry: the
    entry begins before [bound] and ends at or after it. *)
Lemma parse_while_stops bound fuel :
  forall it it' c0,
    Iter.NextEntryOffset it = Some c0 -> c0 < bound ->
    Iter.parse_while fuel bound it = Some it' ->
    Iter.Valid it' = true ->
    Iter.current_ it' < bound
    /\ exists next, Iter.NextEntryOffset it' = Some next /\ bound <= next.
Proof.
  induction fuel as [|fuel IH]; intros it it' c0 Hn Hlt; cbn [Iter.parse_while];
    [discriminate|].
  destruct (Iter.ParseNextKey it) as [[[|] it1]|] eqn:Hp; [| |discriminate].
  - destruct (ParseNextKey_true_basic _ _ Hp) as (_ & Hcur & _).
    rewrite Hn in Hcur. injection Hcur as Hcur.
    destruct (Iter.NextEntryOffset it1) as [next|] eqn:Hn1; [|discriminate].
    destruct (next <? bound) eqn:Hb.
    + apply Z.ltb_lt in Hb. apply (IH it1 it' next Hn1 Hb).
    + apply Z.ltb_ge in Hb. intros H Hv. injection H as <-.
      split; [lia|]. exists next. auto.
  - intros H Hv. injection H as <-.
    destruct (ParseNextKey_false_invalid _ _ Hp) as (Hv' & _). congruence.
Qed.

(** X5.  [Next], when it lands on an entry, lands at least three bytes
    further on; [Prev], when it lands on an entry, lands on one that begins
    before the entry it started from and ends at or after that entry's
    start.  Both hold on any block, whatever its contents. *)
Theorem Next_forward_Prev_backward (it it' : Iter.t) :
  Iter.Valid it' = true ->
  (cursor_invariant it -> Iter.Next it = Some it' ->
   Iter.current_ it + 3 <= Iter.current_ it')
  /\ (Iter.Prev it = Some it' ->
      Iter.current_ it' < Iter.current_ it
      /\ exists next,
           Iter.NextEntryOffset it' = Some next /\ Iter.current_ it <= next).
Proof.
  intros Hv'. split.
  - intros Hinv. unfold Iter.Next.
    destruct (Iter.Valid it) eqn:Hv; [|discriminate].
    destruct (cursor_invariant_valid it Hinv Hv) as (_ & _ & next & Hn & Hb).
    destruct (Iter.ParseNextKey it) as [[[|] it1]|] eqn:Hp; [| |discriminate];
      intros H; injection H as <-.
    + destruct (ParseNextKey_true_basic _ _ Hp) as (_ & Hcur & _).
      rewrite Hn in Hcur. injection Hcur as <-. lia.
    + destruct (ParseNextKey_false_invalid _ _ Hp) as (Hf & _). congruence.
  - unfold Iter.Prev. destruct (Iter.Valid it); [|discriminate].
    destruct (Iter.Prev_scan _ _ _) as [j|] eqn:Hscan.
    + apply Prev_scan_found in Hscan. destruct Hscan as [_ Hlt].
      intros H.
      apply (parse_while_stops _ _ _ _ (Iter.GetRestartPoint it j)) in H;
        try assumption.
      unfold Iter.NextEntryOffset, Iter.SeekToRestartPoint. cbn [Iter.value_].
      rewrite Z.add_0_r, wrap32_small by apply DecodeFixed32_range. reflexivity.
    + intros H. injection H as <-.
      destruct (mark_invalid_facts it) as [Hf _]. congruence.
Qed.

Lemma Next_forward_Prev_backward_witness :
  Iter.Prev (Iter.mk bytewise_compare block_two_runs 20 2 10 1
               (bytes_of [98]) (SliceAt 14 1) OK)
  = Some (Iter.mk bytewise_compare block_two_runs 20 2 5 0
            (bytes_of [97; 98]) (SliceAt 9 1) OK)
  /\ 5 < 10.
Proof.
  split; [reflexivity|].
  apply (proj2 (Next_forward_Prev_backward
                  (Iter.mk bytewise_compare block_two_runs 20 2 10 1
                     (bytes_of [98]) (SliceAt 14 1) OK)
                  (Iter.mk bytewise_compare block_two_runs 20 2 5 0
                     (bytes_of [97; 98]) (SliceAt 9 1) OK)
                  eq_refl)).
  reflexivity.
Defined.

(** ** What a call leaves behind *)

Lemma Seek_scan_same_block target fuel :
  forall it it',
    snd (Iter.Seek_scan fuel target it) = Some it' -> same_block it it'.
Proof.
  induction fuel as [|fuel IH]; intros it it'; cbn [Iter.Seek_scan];
    [discriminate|].
  destruct (Iter.ParseNextKey it) as [[[|] it1]|] eqn:Hp; [| |discriminate].
  - apply ParseNextKey_same_block in Hp. destruct (0 <=? _); cbn [snd].
    + intros H. injection H as <-. exact Hp.
    + intros H. exact (same_block_trans _ _ _ Hp (IH _ _ H)).
  - cbn [snd]. intros H. injection H as <-.
    exact (ParseNextKey_same_block _ _ _ Hp).
Qed.

Lemma Seek_scan_not_below target fuel :
  forall it it',
    snd (Iter.Seek_scan fuel target it) = Some it' ->
    Iter.Valid it' = true ->
    0 <= Iter.comparator_ it' (Iter.key_ it') target.
Proof.
  induction fuel as [|fuel IH]; intros it it'; cbn [Iter.Seek_scan];
    [discriminate|].
  destruct (Iter.ParseNextKey it) as [[[|] it1]|] eqn:Hp; [| |discriminate].
  - unfold Iter.Compare. destruct (0 <=? _) eqn:Hc; cbn [snd].
    + apply Z.leb_le in Hc. intros H _. injection H as <-. exact Hc.
    + apply IH.
  - cbn [snd]. intros H Hv. injection H as <-.
    destruct (ParseNextKey_false_invalid _ _ Hp) as (Hf & _). congruence.
Qed.

(** X7.  On any block and with any comparator, an entry [Seek] lands on has
    a key that does not compare below the target. *)
Theorem Seek_never_lands_below (target : list byte) (it it' : Iter.t) :
  Iter.Seek target it = Some it' ->
  Iter.Valid it' = true ->
  exists k,
    Iter.key it' = Some k /\ 0 <= Iter.comparator_ it k target.
Proof.
  unfold Iter.Seek, Iter.Seek_traced.
  destruct (snd (Iter.Seek_search _ it target 0 _)) as [index| |]; cbn [snd].
  - intros Hs Hv. exists (Iter.key_ it'). unfold Iter.key. rewrite Hv.
    split; [reflexivity|].
    destruct (Seek_scan_same_block _ _ _ _ Hs) as (Hcmp & _).
    cbn [Iter.SeekToRestartPoint Iter.comparator_] in Hcmp.
    rewrite <- Hcmp. exact (Seek_scan_not_below _ _ _ _ Hs Hv).
  - intros H Hv. injection H as <-. exfalso. revert Hv.
    unfold Iter.Valid, Iter.CorruptionError. cbn [Iter.current_ Iter.restarts_].
    rewrite Z.ltb_irrefl. discriminate.
  - discriminate.
Qed.

Lemma Seek_never_lands_below_witness :
  exists it' k,
    Iter.Seek (bytes_of [97; 97]) (fresh bytewise_compare block_two_runs 20 2)
    = Some it'
    /\ Iter.key it' = Some k
    /\ 0 <= bytewise_compare k (bytes_of [97; 97]).
Proof.
  eexists.
  destruct (Seek_never_lands_below (bytes_of [97; 97])
              (fresh bytewise_compare block_two_runs 20 2) _ eq_refl eq_refl)
    as (k & Hk & Hge).
  exists k. split; [reflexivity|]. split; [exact Hk|exact Hge].
Defined.

(** The status after a call: as before, or the corruption on a cleared,
    invalid cursor. *)
Lemma ParseNextKey_status it b it' :
  Iter.ParseNextKey it = Some (b, it') ->
  (b = true /\ Iter.status_ it' = Iter.status_ it)
  \/ (b = false /\ Iter.Valid it' = false
      /\ (Iter.status_ it' = Iter.status_ it
          \/ (Iter.status_ it' = bad_entry /\ Iter.key_ it' = []
              /\ Iter.value_ it' = SliceEmpty))).
Proof.
  intros Hp. destruct b.
  - left. destruct (ParseNextKey_true_basic _ _ Hp) as (_ & _ & Hs). auto.
  - right. destruct (ParseNextKey_false_invalid _ _ Hp) as (Hv & _).
    split; [reflexivity|]. split; [exact Hv|].
    apply ParseNextKey_inv in Hp.
    destruct Hp as (c & _ & [(_ & _ & ->) | [(_ & _ & -> & _) | (Hb & _)]]);
      try discriminate.
    + left. reflexivity.
    + right. repeat split.
Qed.

Lemma parse_while_status bound fuel :
  forall it it',
    Iter.parse_while fuel bound it = Some it' ->
    Iter.status_ it' = Iter.status_ it
    \/ (Iter.status_ it' = bad_entry /\ Iter.Valid it' = false
        /\ Iter.key_ it' = [] /\ Iter.value_ it' = SliceEmpty).
Proof.
  induction fuel as [|fuel IH]; intros it it'; cbn [Iter.parse_while];
    [discriminate|].
  destruct (Iter.ParseNextKey it) as [[b it1]|] eqn:Hp; [|discriminate].
  destruct (ParseNextKey_status _ _ _ Hp) as [[-> Hs]|(-> & Hv & Hs)].
  - destruct (Iter.NextEntryOffset it1) as [next|]; [|discriminate].
    destruct (next <? bound).
    + intros H. destruct (IH _ _ H) as [H1|H1]; [left; congruence|right; exact H1].
    + intros H. injection H as <-. left. exact Hs.
  - intros H. injection H as <-.
    destruct Hs as [Hs|(Hs & Hk & Hval)]; [left; exact Hs|right; auto].
Qed.

Lemma Seek_scan_status target fuel :
  forall it it',
    snd (Iter.Seek_scan fuel target it) = Some it' ->
    Iter.status_ it' = Iter.status_ it
    \/ (Iter.status_ it' = bad_entry /\ Iter.Valid it' = false
        /\ Iter.key_ it' = [] /\ Iter.value_ it' = SliceEmpty).
Proof.
  induction fuel as [|fuel IH]; intros it it'; cbn [Iter.Seek_scan];
    [discriminate|].
  destruct (Iter.ParseNextKey it) as [[b it1]|] eqn:Hp; [|discriminate].
  destruct (ParseNextKey_status _ _ _ Hp) as [[-> Hs]|(-> & Hv & Hs)].
  - destruct (0 <=? _); cbn [snd].
    + intros H. injection H as <-. left. exact Hs.
    + intros H. destruct (IH _ _ H) as [H1|H1]; [left; congruence|right; exact H1].
  - cbn [snd]. intros H. injection H as <-.
    destruct Hs as [Hs|(Hs & Hk & Hval)]; [left; exact Hs|right; auto].
Qed.

(** X8.  A navigation call either leaves the status as it was, or ends with
    the status "bad entry in block" on an invalid cursor whose key and
    value are cleared.  So a call that ends on a valid entry has recorded
    no error, and it is enough to look at the status when the cursor is
    invalid. *)
Theorem status_changes_only_with_invalid (op : Iter.nav) (it it' : Iter.t) :
  Iter.step op it = Some it' ->
  (Iter.Valid it' = true -> Iter.status it' = Iter.status it)
  /\ (Iter.status it' <> Iter.status it ->
      Iter.status it' = Corruption "bad entry in block"
      /\ Iter.Valid it' = false
      /\ Iter.key_ it' = [] /\ Iter.value_ it' = SliceEmpty).
Proof.
  intros Hstep.
  assert (H : Iter.status_ it' = Iter.status_ it
              \/ (Iter.status_ it' = bad_entry /\ Iter.Valid it' = false
                  /\ Iter.key_ it' = [] /\ Iter.value_ it' = SliceEmpty)).
  { destruct op; cbn [Iter.step] in Hstep.
    - unfold Iter.Next in Hstep. destruct (Iter.Valid it); [|discriminate].
      destruct (Iter.ParseNextKey it) as [[b it1]|] eqn:Hp; [|discriminate].
      injection Hstep as <-.
      destruct (ParseNextKey_status _ _ _ Hp) as [[_ Hs]|(_ & Hv & [Hs|Hs])];
        [left; exact Hs|left; exact Hs|right; tauto].
    - unfold Iter.Prev in Hstep. destruct (Iter.Valid it); [|discriminate].
      destruct (Iter.Prev_scan _ _ _).
      + exact (parse_while_status _ _ _ _ Hstep).
      + injection Hstep as <-. left. reflexivity.
    - unfold Iter.Seek, Iter.Seek_traced in Hstep.
      destruct (snd (Iter.Seek_search _ it target 0 _)); cbn [snd] in Hstep.
      + exact (Seek_scan_status _ _ _ _ Hstep).
      + injection Hstep as <-. right.
        unfold Iter.Valid, Iter.CorruptionError.
        cbn [Iter.current_ Iter.restarts_ Iter.status_ Iter.key_ Iter.value_].
        rewrite Z.ltb_irrefl. repeat split.
      + discriminate.
    - unfold Iter.SeekToFirst in Hstep.
      destruct (Iter.ParseNextKey _) as [[b it1]|] eqn:Hp; [|discriminate].
      injection Hstep as <-.
      destruct (ParseNextKey_status _ _ _ Hp) as [[_ Hs]|(_ & Hv & [Hs|Hs])];
        [left; exact Hs|left; exact Hs|right; tauto].
    - exact (parse_while_status _ _ _ _ Hstep). }
  unfold Iter.status. split.
  - intros Hv. destruct H as [H|(_ & Hf & _)]; [exact H|congruence].
  - intros Hne. destruct H as [H|H]; [congruence|exact H].
Qed.

Lemma status_changes_only_with_invalid_witness :
  exists it it',
    Iter.step Iter.NavNext it = Some it'
    /\ Iter.status it = OK
    /\ Iter.status it' = Corruption "bad entry in block"
    /\ Iter.Valid it' = false.
Proof.
  exists (Iter.mk bytewise_compare block_bad_shared 10 1 0 0
            (bytes_of [97]) (SliceAt 4 1) OK).
  eexists. split; [reflexivity|]. split; [reflexivity|].
  destruct (status_changes_only_with_invalid Iter.NavNext
              (Iter.mk bytewise_compare block_bad_shared 10 1 0 0
                 (bytes_of [97]) (SliceAt 4 1) OK) _ eq_refl) as [_ H].
  destruct H as (Hs & Hv & _).
  - discriminate.
  - split; [exact Hs|exact Hv].
Defined.

(** ** Positioning does not depend on the position *)

Lemma ParseNextKey_skip_same_block fuel it1 it2 :
  same_block it1 it2 ->
  forall current ri,
    Iter.ParseNextKey_skip fuel it1 current ri
    = Iter.ParseNextKey_skip fuel it2 current ri.
Proof.
  intros (_ & Hd & Hr & Hn).
  induction fuel as [|fuel IH]; intros current ri; cbn [Iter.ParseNextKey_skip];
    [reflexivity|].
  unfold Iter.GetRestartPoint. rewrite Hd, Hr, Hn, IH. reflexivity.
Qed.

(** [ParseNextKey] does not read [current_]. *)
Lemma ParseNextKey_current cmp data r n c1 c2 ri k v st :
  Iter.ParseNextKey (Iter.mk cmp data r n c1 ri k v st)
  = Iter.ParseNextKey (Iter.mk cmp data r n c2 ri k v st).
Proof.
  unfold Iter.ParseNextKey, Iter.NextEntryOffset, Iter.mark_invalid,
    Iter.CorruptionError.
  cbn [Iter.value_ Iter.restarts_ Iter.data_ Iter.key_ Iter.num_restarts_
       Iter.comparator_ Iter.status_ Iter.restart_index_].
  destruct v as [off size|]; [|reflexivity].
  destruct (r <=? wrap32 (off + size)); [reflexivity|].
  destruct (DecodeEntry data (wrap32 (off + size)) r) as [d|]; [|reflexivity].
  destruct (_ <? shared d); [reflexivity|].
  rewrite (ParseNextKey_skip_same_block _
             (Iter.mk cmp data r n c1 ri k (SliceAt off size) st)
             (Iter.mk cmp data r n c2 ri k (SliceAt off size) st))
    by (repeat split).
  reflexivity.
Qed.

Lemma parse_while_current bound fuel cmp data r n c1 c2 ri k v st :
  Iter.parse_while fuel bound (Iter.mk cmp data r n c1 ri k v st)
  = Iter.parse_while fuel bound (Iter.mk cmp data r n c2 ri k v st).
Proof.
  destruct fuel as [|fuel]; cbn [Iter.parse_while]; [reflexivity|].
  rewrite (ParseNextKey_current cmp data r n c1 c2). reflexivity.
Qed.

Lemma Seek_scan_current target fuel cmp data r n c1 c2 ri k v st :
  Iter.Seek_scan fuel target (Iter.mk cmp data r n c1 ri k v st)
  = Iter.Seek_scan fuel target (Iter.mk cmp data r n c2 ri k v st).
Proof.
  destruct fuel as [|fuel]; cbn [Iter.Seek_scan]; [reflexivity|].
  rewrite (ParseNextKey_current cmp data r n c1 c2). reflexivity.
Qed.

Lemma Seek_search_same_block target it1 it2 :
  same_block it1 it2 ->
  forall fuel left right,
    Iter.Seek_search fuel it1 target left right
    = Iter.Seek_search fuel it2 target left right.
Proof.
  intros (Hc & Hd & Hr & Hn).
  induction fuel as [|fuel IH]; intros left right; cbn [Iter.Seek_search];
    [reflexivity|].
  unfold Iter.GetRestartPoint, Iter.Compare. rewrite Hc, Hd, Hr, !IH.
  reflexivity.
Qed.

(** X9.  [Seek], [SeekToFirst] and [SeekToLast] are absolute: on two cursors
    over the same block, with the same comparator and the same status,
    they give the same result and make the same calls, wherever the two
    cursors were. *)
Theorem positioning_is_absolute (it1 it2 : Iter.t) :
  same_block it1 it2 ->
  Iter.status it1 = Iter.status it2 ->
  (forall target, Iter.Seek_traced target it1 = Iter.Seek_traced target it2)
  /\ (forall target, Iter.Seek target it1 = Iter.Seek target it2)
  /\ Iter.SeekToFirst it1 = Iter.SeekToFirst it2
  /\ Iter.SeekToLast it1 = Iter.SeekToLast it2.
Proof.
  intros Hsame Hst.
  assert (Htr : forall target,
             Iter.Seek_traced target it1 = Iter.Seek_traced target it2).
  { intros target. unfold Iter.Seek_traced.
    rewrite (Seek_search_same_block target it1 it2 Hsame).
    destruct it1 as [cmp1 d1 r1 n1 c1 ri1 k1 v1 s1].
    destruct it2 as [cmp2 d2 r2 n2 c2 ri2 k2 v2 s2].
    destruct Hsame as (Hc & Hd & Hr & Hn). unfold Iter.status in Hst.
    cbn [Iter.comparator_ Iter.data_ Iter.restarts_ Iter.num_restarts_
         Iter.status_] in *.
    subst cmp2 d2 r2 n2 s2.
    destruct (snd (Iter.Seek_search _ _ target 0 _)); [|reflexivity|reflexivity].
    unfold Iter.SeekToRestartPoint, Iter.GetRestartPoint, Iter.parse_fuel.
    cbn [Iter.comparator_ Iter.data_ Iter.restarts_ Iter.num_restarts_
         Iter.status_ Iter.current_].
    rewrite (Seek_scan_current target _ cmp1 d1 r1 n1 c1 c2). reflexivity. }
  split; [exact Htr|]. split.
  { intros target. unfold Iter.Seek. rewrite Htr. reflexivity. }
  destruct it1 as [cmp1 d1 r1 n1 c1 ri1 k1 v1 s1].
  destruct it2 as [cmp2 d2 r2 n2 c2 ri2 k2 v2 s2].
  destruct Hsame as (Hc & Hd & Hr & Hn). unfold Iter.status in Hst.
  cbn [Iter.comparator_ Iter.data_ Iter.restarts_ Iter.num_restarts_
       Iter.status_] in *.
  subst cmp2 d2 r2 n2 s2.
  unfold Iter.SeekToFirst, Iter.SeekToLast, Iter.SeekToRestartPoint,
    Iter.GetRestartPoint, Iter.parse_fuel.
  cbn [Iter.comparator_ Iter.data_ Iter.restarts_ Iter.num_restarts_
       Iter.status_ Iter.current_].
  rewrite (ParseNextKey_current cmp1 d1 r1 n1 c1 c2).
  rewrite (parse_while_current _ _ cmp1 d1 r1 n1 c1 c2).
  split; reflexivity.
Qed.

Lemma positioning_is_absolute_witness :
  Iter.SeekToLast (fresh bytewise_compare block_two_runs 20 2)
  = Iter.SeekToLast (Iter.mk bytewise_compare block_two_runs 20 2 5 0
                       (bytes_of [97; 98]) (SliceAt 9 1) OK).
Proof.
  apply (positioning_is_absolute
           (fresh bytewise_compare block_two_runs 20 2)
           (Iter.mk bytewise_compare block_two_runs 20 2 5 0
              (bytes_of [97; 98]) (SliceAt 9 1) OK)).
  - repeat split.
  - reflexivity.
Defined.

(** ** From the buffer to the cursor *)

(** X10.  For a buffer below 2^32 bytes, the cursor [NewIterator] returns
    is the fresh cursor over the buffer, with restart points and the
    restart array that ends four bytes before the end of the buffer: every
    [GetRestartPoint(index)] with [index < num_restarts_] reads four bytes
    inside the buffer, after the entries and before the trailing count. *)
Theorem NewIterator_cursor_geometry (contents : Block.BlockContents)
    (cmp : Comparator) (it : Iter.t) :
  Z.of_nat (length (Block.data contents)) < 2 ^ 32 ->
  Block.NewIterator (Block.new contents) cmp = Some (BlockIter it) ->
  it = fresh cmp (Block.data contents) (Iter.restarts_ it) (Iter.num_restarts_ it)
  /\ Iter.num_restarts_ it
     = DecodeFixed32 (Block.data contents)
         (Z.of_nat (length (Block.data contents)) - 4)
  /\ 0 <= Iter.restarts_ it /\ 0 < Iter.num_restarts_ it
  /\ Iter.restarts_ it + 4 * Iter.num_restarts_ it + 4
     = Z.of_nat (length (Block.data contents))
  /\ in_range it
  /\ forall index, 0 <= index < Iter.num_restarts_ it ->
       Iter.restarts_ it <= Iter.restarts_ it + index * 4
       /\ Iter.restarts_ it + index * 4 + 4
          <= Z.of_nat (length (Block.data contents)) - 4.
Proof.
  intros H32 Hnew. unfold Block.NewIterator, Block.new in Hnew.
  set (len := Z.of_nat (length (Block.data contents))) in *.
  remember (Block.NumRestarts (Block.data contents) len) as n eqn:Hndef.
  assert (Hn : 0 <= n < 2 ^ 32) by (subst n; apply DecodeFixed32_range).
  unfold Block.NumRestarts in Hndef.
  destruct (len <? 4) eqn:H4.
  { cbn [Block.size_] in Hnew. discriminate. }
  apply Z.ltb_ge in H4.
  destruct ((len - 4) / 4 <? n) eqn:Hmax.
  { cbn [Block.size_] in Hnew. discriminate. }
  apply Z.ltb_ge in Hmax.
  cbn [Block.size_ Block.data_ Block.restart_offset_] in Hnew.
  replace (len <? 4) with false in Hnew by (symmetry; apply Z.ltb_ge; exact H4).
  unfold Block.NumRestarts in Hnew. rewrite <- !Hndef in Hnew.
  destruct (n =? 0) eqn:Hn0; [discriminate|]. apply Z.eqb_neq in Hn0.
  assert (Hfit : 4 * n <= len - 4).
  { pose proof (Z.mul_div_le (len - 4) 4). lia. }
  rewrite (wrap32_small (1 + n)) in Hnew by lia.
  rewrite (wrap32_small (len - (1 + n) * 4)) in Hnew by lia.
  remember (len - (1 + n) * 4) as r eqn:Hrdef.
  unfold Iter.new in Hnew.
  replace (0 <? n) with true in Hnew by (symmetry; apply Z.ltb_lt; lia).
  cbn [option_map] in Hnew. injection Hnew as <-.
  unfold in_range, fresh.
  cbn [Iter.restarts_ Iter.num_restarts_].
  repeat split; first [lia|exact Hndef].
Qed.

Lemma NewIterator_cursor_geometry_witness :
  exists it,
    Block.NewIterator (Block.new (Block.mkContents block_two_runs false))
      bytewise_compare = Some (BlockIter it)
    /\ Iter.restarts_ it + 4 * Iter.num_restarts_ it + 4 = 32.
Proof.
  eexists. split; [reflexivity|].
  apply (NewIterator_cursor_geometry
           (Block.mkContents block_two_runs false) bytewise_compare).
  - cbn. lia.
  - reflexivity.
Defined.

(** X11.  A well-formed buffer whose trailing count is its restart count is
    a valid block, and [NewIterator] returns the fresh cursor over its
    entries, restart array and count. *)
Theorem WellFormed_block_accepted (data : list byte) (restarts num_restarts : Z)
    (es : list Entry) (owned : bool) (cmp : Comparator) :
  WellFormed data restarts num_restarts es ->
  Block.NumRestarts data (Z.of_nat (length data)) = num_restarts ->
  Block.size_ (Block.new (Block.mkContents data owned)) = Z.of_nat (length data)
  /\ Block.restart_offset_ (Block.new (Block.mkContents data owned))
     = Some restarts
  /\ Block.NewIterator (Block.new (Block.mkContents data owned)) cmp
     = Some (BlockIter (fresh cmp data restarts num_restarts)).
Proof.
  intros wf Hcount.
  pose proof (wf_restarts _ _ _ _ wf) as Hr. pose proof (wf_num _ _ _ _ wf) as Hn.
  pose proof (wf_size _ _ _ _ wf) as Hsize.
  pose proof (wf_size32 _ _ _ _ wf) as H32.
  unfold Block.NewIterator, Block.new. cbn [Block.data Block.heap_allocated].
  set (len := Z.of_nat (length data)) in *.
  replace (len <? 4) with false by (symmetry; apply Z.ltb_ge; lia).
  rewrite Hcount.
  replace ((len - 4) / 4 <? num_restarts) with false.
  2:{ symmetry. apply Z.ltb_ge. apply Z.div_le_lower_bound; lia. }
  cbn [Block.size_ Block.data_ Block.restart_offset_].
  replace (len <? 4) with false by (symmetry; apply Z.ltb_ge; lia).
  rewrite Hcount.
  replace (num_restarts =? 0) with false by (symmetry; apply Z.eqb_neq; lia).
  rewrite (wrap32_small (1 + num_restarts)) by lia.
  rewrite (wrap32_small (len - (1 + num_restarts) * 4)) by lia.
  replace (len - (1 + num_restarts) * 4) with restarts by lia.
  unfold Iter.new.
  replace (0 <? num_restarts) with true by (symmetry; apply Z.ltb_lt; lia).
  repeat split.
Qed.

Lemma WellFormed_block_accepted_witness :
  Block.NewIterator (Block.new (Block.mkContents block_two_runs false))
    bytewise_compare
  = Some (BlockIter (fresh bytewise_compare block_two_runs 20 2)).
Proof.
  apply (WellFormed_block_accepted block_two_runs 20 2 entries_two_runs false
           bytewise_compare block_two_runs_well_formed).
  reflexivity.
Defined.

(** ** Steps on a well-formed block *)

Lemma positioned_accessors data limit n es it e :
  WellFormed data limit n es ->
  positioned data limit n it e -> In e es ->
  Iter.Valid it = true
  /\ Iter.key it = Some (e_key e)
  /\ Iter.value it = Some (e_value e)
  /\ Iter.current_ it = e_off e.
Proof.
  intros wf Hpos Hin.
  pose proof (positioned_valid data limit n es wf it e Hpos Hin) as Hv.
  destruct Hpos as (_ & (Hc & Hk & Hval) & _).
  unfold Iter.key, Iter.value. rewrite Hv, Hk, Hval. auto.
Qed.

(** X12.  [Next] on a well-formed block: from an entry that has a successor
    it lands on the successor, which starts where the entry ends; from the
    last entry it leaves the cursor invalid; the status is not touched. *)
Theorem Next_on_well_formed (data : list byte) (limit n : Z) (es : list Entry)
    (la : list Entry) (e : Entry) (lb : list Entry) (c : Iter.t) :
  WellFormed data limit n es ->
  es = la ++ e :: lb ->
  positioned data limit n c e ->
  exists c',
    Iter.Next c = Some c'
    /\ Iter.status c' = Iter.status c
    /\ (Iter.Valid c' = false <-> lb = [])
    /\ (forall e2 lb', lb = e2 :: lb' ->
          positioned data limit n c' e2
          /\ Iter.key c' = Some (e_key e2)
          /\ Iter.value c' = Some (e_value e2)
          /\ Iter.current_ c' = e_next e).
Proof.
  intros wf E Hpos. destruct lb as [|e2 lb'].
  - rewrite (Next_last data limit n es wf la e c E Hpos).
    destruct (mark_invalid_facts c) as [Hv Hs].
    eexists. split; [reflexivity|]. split; [exact Hs|]. split; [tauto|].
    intros e2 lb' H. discriminate.
  - destruct (Next_step data limit n es wf la e e2 lb' c E Hpos)
      as (c' & Hnext & Hpos' & _ & Hst).
    assert (Hin : In e2 es).
    { rewrite E. apply in_or_app. right. right. left. reflexivity. }
    destruct (positioned_accessors data limit n es c' e2 wf Hpos' Hin)
      as (Hv & Hk & Hval & Hcur).
    assert (E2 : es = (la ++ [e]) ++ e2 :: lb') by (rewrite <- app_assoc; exact E).
    destruct (wf_look data limit n es wf _ _ _ E2)
      as (_ & _ & _ & _ & _ & prev' & _ & _ & Hlast).
    destruct (Hlast la e eq_refl) as [_ Hoff].
    exists c'. split; [exact Hnext|]. split; [exact Hst|]. split.
    + split; [congruence|discriminate].
    + intros e3 lb3 H. injection H as <- <-.
      repeat split; try assumption; try apply Hpos'. congruence.
Qed.

Lemma Next_on_well_formed_witness :
  exists c',
    Iter.Next (Iter.mk bytewise_compare block_two_runs 20 2 5 0
                 (bytes_of [97; 98]) (SliceAt 9 1) OK) = Some c'
    /\ Iter.key c' = Some (bytes_of [98])
    /\ Iter.current_ c' = 10.
Proof.
  destruct (Next_on_well_formed block_two_runs 20 2 entries_two_runs
              [mkEntry 0 (mkDecoded 3 0 1 1) (bytes_of [97])]
              (mkEntry 5 (mkDecoded 8 1 1 1) (bytes_of [97; 98]))
              [mkEntry 10 (mkDecoded 13 0 1 1) (bytes_of [98]);
               mkEntry 15 (mkDecoded 18 1 1 1) (bytes_of [98; 99])]
              (Iter.mk bytewise_compare block_two_runs 20 2 5 0
                 (bytes_of [97; 98]) (SliceAt 9 1) OK)
              block_two_runs_well_formed)
    as (c' & Hnext & _ & _ & Hsucc).
  - reflexivity.
  - split; [repeat split|]. split; [repeat split|].
    split; [cbn; lia|]. intros _. vm_compute. discriminate.
  - destruct (Hsucc _ _ eq_refl) as (_ & Hk & _ & Hcur).
    exists c'. split; [exact Hnext|]. split; [exact Hk|exact Hcur].
Defined.

(** X13.  On a well-formed block [Next] and [Prev] undo each other: [Next]
    then [Prev] comes back to the entry it left, and so does [Prev] then
    [Next], with the same key, value and offset. *)
Theorem Next_Prev_inverse (data : list byte) (limit n : Z) (es : list Entry)
    (la : list Entry) (e e2 : Entry) (lb : list Entry) :
  WellFormed data limit n es ->
  es = la ++ e :: e2 :: lb ->
  (forall c, positioned data limit n c e ->
     exists c1 c2,
       Iter.Next c = Some c1 /\ Iter.Prev c1 = Some c2
       /\ Iter.Valid c2 = true
       /\ Iter.key c2 = Iter.key c /\ Iter.value c2 = Iter.value c
       /\ Iter.current_ c2 = Iter.current_ c
       /\ Iter.status c2 = Iter.status c)
  /\ (forall c, positioned data limit n c e2 ->
        exists c1 c2,
          Iter.Prev c = Some c1 /\ Iter.Next c1 = Some c2
          /\ Iter.Valid c2 = true
          /\ Iter.key c2 = Iter.key c /\ Iter.value c2 = Iter.value c
          /\ Iter.current_ c2 = Iter.current_ c
          /\ Iter.status c2 = Iter.status c).
Proof.
  intros wf E.
  assert (Hin : In e es).
  { rewrite E. apply in_or_app. right. left. reflexivity. }
  assert (Hin2 : In e2 es).
  { rewrite E. apply in_or_app. right. right. left. reflexivity. }
  split; intros c Hpos.
  - destruct (Next_step data limit n es wf la e e2 lb c E Hpos)
      as (c1 & Hnext & Hpos1 & _ & Hst1).
    destruct (Prev_step data limit n es wf la e e2 lb c1 E Hpos1)
      as (c2 & Hprev & Hpos2 & _ & Hst2).
    destruct (positioned_accessors data limit n es c e wf Hpos Hin)
      as (_ & Hk & Hval & Hcur).
    destruct (positioned_accessors data limit n es c2 e wf Hpos2 Hin)
      as (Hv2 & Hk2 & Hval2 & Hcur2).
    exists c1, c2. unfold Iter.status. repeat split; try assumption; congruence.
  - destruct (Prev_step data limit n es wf la e e2 lb c E Hpos)
      as (c1 & Hprev & Hpos1 & _ & Hst1).
    destruct (Next_step data limit n es wf la e e2 lb c1 E Hpos1)
      as (c2 & Hnext & Hpos2 & _ & Hst2).
    destruct (positioned_accessors data limit n es c e2 wf Hpos Hin2)
      as (_ & Hk & Hval & Hcur).
    destruct (positioned_accessors data limit n es c2 e2 wf Hpos2 Hin2)
      as (Hv2 & Hk2 & Hval2 & Hcur2).
    exists c1, c2. unfold Iter.status. repeat split; try assumption; congruence.
Qed.

Lemma Next_Prev_inverse_witness :
  exists c1 c2,
    Iter.Next (Iter.mk bytewise_compare block_two_runs 20 2 5 0
                 (bytes_of [97; 98]) (SliceAt 9 1) OK) = Some c1
    /\ Iter.Prev c1 = Some c2
    /\ Iter.key c2 = Some (bytes_of [97; 98]).
Proof.
  destruct (Next_Prev_inverse block_two_runs 20 2 entries_two_runs
              [mkEntry 0 (mkDecoded 3 0 1 1) (bytes_of [97])]
              (mkEntry 5 (mkDecoded 8 1 1 1) (bytes_of [97; 98]))
              (mkEntry 10 (mkDecoded 13 0 1 1) (bytes_of [98]))
              [mkEntry 15 (mkDecoded 18 1 1 1) (bytes_of [98; 99])]
              block_two_runs_well_formed eq_refl) as [H _].
  destruct (H (Iter.mk bytewise_compare block_two_runs 20 2 5 0
                 (bytes_of [97; 98]) (SliceAt 9 1) OK))
    as (c1 & c2 & Hn & Hp & _ & Hk & _).
  - split; [repeat split|]. split; [repeat split|].
    split; [cbn; lia|]. intros _. vm_compute. discriminate.
  - exists c1, c2. split; [exact Hn|]. split; [exact Hp|].
    rewrite Hk. reflexivity.
Defined.

(** X14.  The ends of a well-formed block: on a block without entries
    [SeekToFirst] and [SeekToLast] leave the cursor invalid with the status
    untouched; otherwise [SeekToFirst] lands on the first entry, at offset
    0, from which [Prev] goes invalid, and [SeekToLast] lands on the last
    entry, which ends at the restart array and from which [Next] goes
    invalid. *)
Theorem ends_of_well_formed_block (it : Iter.t) (es : list Entry) :
  WellFormed (Iter.data_ it) (Iter.restarts_ it) (Iter.num_restarts_ it) es ->
  (es = [] ->
     exists f l,
       Iter.SeekToFirst it = Some f /\ Iter.SeekToLast it = Some l
       /\ Iter.Valid f = false /\ Iter.Valid l = false
       /\ Iter.status f = Iter.status it /\ Iter.status l = Iter.status it)
  /\ (forall e rest, es = e :: rest ->
        exists f p,
          Iter.SeekToFirst it = Some f
          /\ Iter.Valid f = true
          /\ Iter.key f = Some (e_key e) /\ Iter.value f = Some (e_value e)
          /\ Iter.current_ f = 0
          /\ Iter.status f = Iter.status it
          /\ Iter.Prev f = Some p /\ Iter.Valid p = false
          /\ Iter.status p = Iter.status it)
  /\ (forall la e, es = la ++ [e] ->
        exists l x,
          Iter.SeekToLast it = Some l
          /\ Iter.Valid l = true
          /\ Iter.key l = Some (e_key e) /\ Iter.value l = Some (e_value e)
          /\ Iter.NextEntryOffset l = Some (Iter.restarts_ it)
          /\ Iter.status l = Iter.status it
          /\ Iter.Next l = Some x /\ Iter.Valid x = false
          /\ Iter.status x = Iter.status it).
Proof.
  intros wf.
  set (data := Iter.data_ it) in *. set (limit := Iter.restarts_ it) in *.
  set (n := Iter.num_restarts_ it) in *.
  assert (Hon : on_block data limit n it) by (repeat split).
  unfold Iter.status. split; [|split].
  - intros E.
    rewrite (SeekToFirst_empty data limit n es wf it E Hon).
    destruct (SeekToLast_empty data limit n es wf it E Hon) as (l & Hl & Hv & Hs).
    destruct (mark_invalid_facts (Iter.SeekToRestartPoint 0 it)) as [Hvf Hsf].
    exists (Iter.mark_invalid (Iter.SeekToRestartPoint 0 it)), l.
    split; [reflexivity|]. split; [exact Hl|]. split; [exact Hvf|].
    split; [exact Hv|]. split; [exact Hsf|exact Hs].
  - intros e rest E.
    assert (Hin : In e es) by (rewrite E; left; reflexivity).
    destruct (SeekToFirst_entry data limit n es wf e rest it E Hon)
      as (f & Hf & Hpos & _ & Hst & _).
    destruct (positioned_accessors data limit n es f e wf Hpos Hin)
      as (Hv & Hk & Hval & Hcur).
    destruct (wf_look data limit n es wf [] e rest E)
      as (_ & _ & _ & _ & _ & prev' & _ & Hfirst & _).
    destruct (Hfirst eq_refl) as [_ Hoff].
    pose proof (Prev_first data limit n es wf e rest f E Hpos) as Hp.
    destruct (mark_invalid_facts f) as [Hvp Hsp].
    exists f, (Iter.mark_invalid f).
    split; [exact Hf|]. split; [exact Hv|]. split; [exact Hk|].
    split; [exact Hval|]. split; [congruence|]. split; [exact Hst|].
    split; [exact Hp|]. split; [exact Hvp|congruence].
  - intros la e E.
    assert (Hin : In e es).
    { rewrite E. apply in_or_app. right. left. reflexivity. }
    destruct (SeekToLast_entry data limit n es wf la e it E Hon)
      as (l & Hl & Hpos & _ & Hst).
    destruct (positioned_accessors data limit n es l e wf Hpos Hin)
      as (Hv & Hk & Hval & Hcur).
    pose proof (positioned_next data limit n es wf l e Hpos Hin) as Hnext.
    rewrite (wf_last_next data limit n es wf la e E) in Hnext.
    pose proof (Next_last data limit n es wf la e l E Hpos) as Hx.
    destruct (mark_invalid_facts l) as [Hvx Hsx].
    exists l, (Iter.mark_invalid l).
    split; [exact Hl|]. split; [exact Hv|]. split; [exact Hk|].
    split; [exact Hval|]. split; [exact Hnext|]. split; [exact Hst|].
    split; [exact Hx|]. split; [exact Hvx|congruence].
Qed.

Lemma ends_of_well_formed_block_witness :
  exists f l,
    Iter.SeekToFirst (fresh bytewise_compare block_two_runs 20 2) = Some f
    /\ Iter.key f = Some (bytes_of [97])
    /\ Iter.SeekToLast (fresh bytewise_compare block_two_runs 20 2) = Some l
    /\ Iter.key l = Some (bytes_of [98; 99]).
Proof.
  destruct (ends_of_well_formed_block
              (fresh bytewise_compare block_two_runs 20 2) entries_two_runs
              block_two_runs_well_formed) as (_ & Hfirst & Hlast).
  destruct (Hfirst _ _ eq_refl) as (f & _ & Hf & _ & Hkf & _).
  destruct (Hlast [mkEntry 0 (mkDecoded 3 0 1 1) (bytes_of [97]);
                   mkEntry 5 (mkDecoded 8 1 1 1) (bytes_of [97; 98]);
                   mkEntry 10 (mkDecoded 13 0 1 1) (bytes_of [98])]
              (mkEntry 15 (mkDecoded 18 1 1 1) (bytes_of [98; 99])) eq_refl)
    as (l & _ & Hl & _ & Hkl & _).
  exists f, l. repeat split; assumption.
Defined.

(** X15.  [Seek] then [Prev] on a well-formed sorted block: when [Seek]
    lands on an entry, [Prev] from there lands on the last entry whose key
    is below the target, or leaves the cursor invalid when no key is
    below it. *)
Theorem Seek_then_Prev (it : Iter.t) (es : list Entry) (target : list byte) :
  WellFormed (Iter.data_ it) (Iter.restarts_ it) (Iter.num_restarts_ it) es ->
  ComparatorOrder (Iter.comparator_ it) ->
  sorted_keys (Iter.comparator_ it) es ->
  forall s,
    Iter.Seek target it = Some s -> Iter.Valid s = true ->
    exists p before e after,
      Iter.Prev s = Some p
      /\ es = before ++ e :: after
      /\ Iter.key s = Some (e_key e)
      /\ (forall x, In x before -> Iter.comparator_ it (e_key x) target < 0)
      /\ (forall x, In x (e :: after) ->
            0 <= Iter.comparator_ it (e_key x) target)
      /\ (Iter.Valid p = false <-> before = [])
      /\ (forall before' x, before = before' ++ [x] ->
            Iter.Valid p = true
            /\ Iter.key p = Some (e_key x) /\ Iter.value p = Some (e_value x)).
Proof.
  intros wf ord sorted s Hs Hv.
  destruct (Seek_lands _ _ _ es (Iter.comparator_ it) target wf ord sorted it)
    as (s' & Hs' & _ & Hres); [repeat split|reflexivity|].
  rewrite Hs in Hs'. injection Hs' as <-.
  destruct Hres as [(before & e & after & E & Hlt & Hge & Hpos & _)|[_ Hf]];
    [|congruence].
  assert (Hin : In e es).
  { rewrite E. apply in_or_app. right. left. reflexivity. }
  destruct (positioned_accessors _ _ _ es s e wf Hpos Hin) as (_ & Hk & _).
  assert (Hafter : forall x, In x (e :: after) ->
            0 <= Iter.comparator_ it (e_key x) target).
  { intros x [<-|Hx]; [exact Hge|].
    rewrite E in sorted.
    destruct (sorted_split _ _ _ _ sorted) as [_ Hgt].
    specialize (Hgt x Hx).
    destruct (Z_lt_le_dec (Iter.comparator_ it (e_key x) target) 0) as [Hc|Hc];
      [|exact Hc].
    pose proof (cmp_trans _ ord _ _ _ Hgt Hc). lia. }
  destruct before as [|y before0] using rev_ind.
  - rewrite (Prev_first _ _ _ es wf e after s E Hpos).
    destruct (mark_invalid_facts s) as [Hvp _].
    exists (Iter.mark_invalid s), [], e, after.
    split; [reflexivity|]. split; [exact E|]. split; [exact Hk|].
    split; [exact Hlt|]. split; [exact Hafter|]. split.
    + split; [intros _; reflexivity|intros _; exact Hvp].
    + intros before' x H. destruct before'; discriminate.
  - clear IHbefore0. rewrite <- app_assoc in E. cbn [app] in E.
    destruct (Prev_step _ _ _ es wf before0 y e after s E Hpos)
      as (p & Hp & Hposp & _).
    assert (Hiny : In y es).
    { rewrite E. apply in_or_app. right. left. reflexivity. }
    destruct (positioned_accessors _ _ _ es p y wf Hposp Hiny)
      as (Hvp & Hkp & Hvalp & _).
    exists p, (before0 ++ [y]), e, after.
    split; [exact Hp|]. split; [rewrite <- app_assoc; exact E|].
    split; [exact Hk|]. split; [exact Hlt|]. split; [exact Hafter|]. split.
    + split; [congruence|]. intros H. destruct before0; discriminate.
    + intros before' x H. apply app_inj_tail in H. destruct H as [_ <-]. auto.
Qed.

Lemma Seek_then_Prev_witness :
  exists s p,
    Iter.Seek (bytes_of [97; 122]) (fresh bytewise_compare block_two_runs 20 2)
    = Some s
    /\ Iter.Prev s = Some p
    /\ Iter.key s = Some (bytes_of [98])
    /\ Iter.key p = Some (bytes_of [97; 98]).
Proof.
  destruct (Seek_then_Prev (fresh bytewise_compare block_two_runs 20 2)
              entries_two_runs (bytes_of [97; 122])
              block_two_runs_well_formed bytewise_compare_order
              entries_two_runs_sorted _ eq_refl eq_refl)
    as (p & before & e & after & Hp & _).
  eexists. exists p. split; [reflexivity|]. split; [exact Hp|].
  split; [reflexivity|]. vm_compute in Hp. injection Hp as <-. reflexivity.
Defined.

(** ** The restart index and the cost of the binary search *)

Lemma ParseNextKey_skip_passed fuel :
  forall it current ri,
    0 <= ri < Iter.num_restarts_ it ->
    Iter.num_restarts_ it < 2 ^ 32 ->
    forall j, ri < j <= Iter.ParseNextKey_skip fuel it current ri ->
              Iter.GetRestartPoint it j < current.
Proof.
  induction fuel as [|fuel IH]; intros it current ri Hri Hn j;
    cbn [Iter.ParseNextKey_skip]; [lia|].
  rewrite (wrap32_small (ri + 1)) by lia.
  destruct (ri + 1 <? Iter.num_restarts_ it) eqn:Hlt; cbn [andb]; [|lia].
  apply Z.ltb_lt in Hlt.
  destruct (Iter.GetRestartPoint it (ri + 1) <? current) eqn:Hc; [|lia].
  apply Z.ltb_lt in Hc. intros Hj.
  destruct (Z.eq_dec j (ri + 1)) as [->|Hne]; [exact Hc|].
  apply (IH it current (ri + 1)); lia.
Qed.

(** X16.  [ParseNextKey] moves [restart_index_] forward only: after a
    successful call it is at or after where it was, every restart point it
    has passed lies before the current entry, and the restart point after
    it does not. *)
Theorem ParseNextKey_restart_index_forward (it it' : Iter.t) :
  in_range it ->
  0 <= Iter.restart_index_ it < Iter.num_restarts_ it ->
  Iter.ParseNextKey it = Some (true, it') ->
  Iter.restart_index_ it <= Iter.restart_index_ it' < Iter.num_restarts_ it
  /\ (forall j, Iter.restart_index_ it < j <= Iter.restart_index_ it' ->
        Iter.GetRestartPoint it j < Iter.current_ it')
  /\ (Iter.restart_index_ it' + 1 < Iter.num_restarts_ it ->
      Iter.current_ it' <= Iter.GetRestartPoint it (Iter.restart_index_ it' + 1)).
Proof.
  intros ((Hr0 & Hr) & (Hn0 & Hn)) Hri Hp.
  apply ParseNextKey_inv in Hp.
  destruct Hp as (c & _ & [(Hb & _) | [(Hb & _) | (_ & _ & d & _ & _ & ->)]]);
    try discriminate.
  cbn [Iter.restart_index_ Iter.current_].
  destruct (ParseNextKey_skip_exit (S (Z.to_nat (Iter.num_restarts_ it))) it c
              (Iter.restart_index_ it)) as [H1 H2]; [lia|lia|lia|].
  split; [exact H1|]. split; [|exact H2].
  apply ParseNextKey_skip_passed; lia.
Qed.

Lemma ParseNextKey_restart_index_forward_witness :
  exists it',
    Iter.ParseNextKey (Iter.mk bytewise_compare block_two_runs 20 2 10 0
                         (bytes_of [98]) (SliceAt 14 1) OK) = Some (true, it')
    /\ 0 <= Iter.restart_index_ it' < 2.
Proof.
  eexists. split; [reflexivity|].
  apply (ParseNextKey_restart_index_forward
           (Iter.mk bytewise_compare block_two_runs 20 2 10 0
              (bytes_of [98]) (SliceAt 14 1) OK)).
  - unfold in_range. cbn. lia.
  - cbn. lia.
  - reflexivity.
Defined.

Lemma pow2_of_nat_0 : 2 ^ Z.of_nat 0 = 1.
Proof. reflexivity. Qed.

Lemma pow2_of_nat_1 : 2 ^ Z.of_nat 1 = 2.
Proof. reflexivity. Qed.

Lemma count_probes_search it target fuel :
  forall left right,
    0 <= left -> right < 2 ^ 31 ->
    (right <= left ->
     count_probes (fst (Iter.Seek_search fuel it target left right)) = 0%nat)
    /\ (left < right ->
        2 ^ Z.of_nat (count_probes (fst (Iter.Seek_search fuel it target left right)))
        <= 2 * (right - left)).
Proof.
  induction fuel as [|fuel IH]; intros left right Hl Hr;
    cbn [Iter.Seek_search]; destruct (left <? right) eqn:Hlt;
    try (apply Z.ltb_ge in Hlt; split; [reflexivity|lia]);
    apply Z.ltb_lt in Hlt; (split; [lia|intros _]).
  - match goal with |- _ <= ?r => change (2 ^ Z.of_nat 0 <= r) end.
    rewrite pow2_of_nat_0. lia.
  - rewrite (wrap32_small (left + right + 1)) by lia.
    assert (Hmid : left < (left + right + 1) / 2 <= right
                   /\ 2 * (right - (left + right + 1) / 2) <= right - left
                   /\ 2 * ((left + right + 1) / 2 - 1 - left) <= right - left).
    { pose proof (Z.div_mod (left + right + 1) 2 ltac:(lia)).
      pose proof (Z.mod_pos_bound (left + right + 1) 2 ltac:(lia)). lia. }
    destruct Hmid as (Hmid & Hup & Hdown).
    set (mid := (left + right + 1) / 2) in *.
    destruct (DecodeEntry _ _ _) as [d|].
    2:{ match goal with |- _ <= ?r => change (2 ^ Z.of_nat 1 <= r) end.
        rewrite pow2_of_nat_1. lia. }
    destruct (negb _).
    { match goal with |- _ <= ?r => change (2 ^ Z.of_nat 1 <= r) end.
      rewrite pow2_of_nat_1. lia. }
    assert (Hstep : forall l' r',
               0 <= l' -> r' < 2 ^ 31 -> 2 * (r' - l') <= right - left ->
               2 ^ Z.of_nat (S (count_probes
                                  (fst (Iter.Seek_search fuel it target l' r'))))
               <= 2 * (right - left)).
    { intros l' r' Hl' Hr' Hw. destruct (IH l' r' Hl' Hr') as [H0 H1].
      destruct (Z_lt_le_dec l' r') as [Hc|Hc].
      - specialize (H1 Hc). rewrite Nat2Z.inj_succ, Z.pow_succ_r by lia. lia.
      - rewrite (H0 Hc), pow2_of_nat_1. lia. }
    rewrite (wrap32_small (mid - 1)) by lia.
    destruct (Iter.Compare it _ target <? 0); cbn [fst].
    + apply (Hstep mid right); lia.
    + apply (Hstep left (mid - 1)); lia.
Qed.

Lemma count_probes_app tr1 tr2 :
  count_probes (tr1 ++ tr2) = (count_probes tr1 + count_probes tr2)%nat.
Proof. unfold count_probes. rewrite filter_app, length_app. reflexivity. Qed.

Lemma count_probes_scan target fuel :
  forall it, count_probes (fst (Iter.Seek_scan fuel target it)) = 0%nat.
Proof.
  induction fuel as [|fuel IH]; intros it; cbn [Iter.Seek_scan]; [reflexivity|].
  destruct (Iter.ParseNextKey it) as [[[|] it']|]; try reflexivity.
  destruct (0 <=? _); cbn [fst]; [reflexivity|].
  unfold count_probes in *. cbn [filter]. apply IH.
Qed.

(** X17.  The binary search of [Seek] is logarithmic in the number of
    restart points: with [p] restart points probed,
    [2^p <= 2 * (num_restarts_ - 1)]; with a single restart point none is
    probed. *)
Theorem Seek_probes_logarithmic (target : list byte) (it : Iter.t) :
  0 < Iter.num_restarts_ it < 2 ^ 31 ->
  (Iter.num_restarts_ it = 1 ->
   count_probes (fst (Iter.Seek_traced target it)) = 0%nat)
  /\ (1 < Iter.num_restarts_ it ->
      2 ^ Z.of_nat (count_probes (fst (Iter.Seek_traced target it)))
      <= 2 * (Iter.num_restarts_ it - 1)).
Proof.
  intros Hn. unfold Iter.Seek_traced.
  rewrite (wrap32_small (Iter.num_restarts_ it - 1)) by lia.
  set (search := Iter.Seek_search (Z.to_nat (Iter.num_restarts_ it)) it target 0
                   (Iter.num_restarts_ it - 1)).
  destruct (count_probes_search it target (Z.to_nat (Iter.num_restarts_ it))
              0 (Iter.num_restarts_ it - 1)) as [H0 H1]; [lia|lia|].
  fold search in H0, H1.
  match goal with
  | |- context [count_probes (fst ?m)] =>
      assert (Hc : count_probes (fst m) = count_probes (fst search))
  end.
  { destruct (snd search) as [index| |]; cbn [fst]; try reflexivity.
    rewrite count_probes_app.
    assert (Hscan : count_probes
                      (Iter.EvSeekToRestartPoint index
                       :: fst (Iter.Seek_scan (Iter.parse_fuel it) target
                                 (Iter.SeekToRestartPoint index it))) = 0%nat).
    { exact (count_probes_scan target _ _). }
    rewrite Hscan. lia. }
  rewrite Hc. split; intros H.
  - apply H0. lia.
  - specialize (H1 ltac:(lia)). lia.
Qed.

Lemma Seek_probes_logarithmic_witness :
  2 ^ Z.of_nat (count_probes
                  (fst (Iter.Seek_traced (bytes_of [98])
                          (fresh bytewise_compare block_two_runs 20 2))))
  <= 2.
Proof.
  apply (Seek_probes_logarithmic (bytes_of [98])
           (fresh bytewise_compare block_two_runs 20 2)).
  - cbn. lia.
  - cbn. lia.
Defined.

(** ** Where the value of a valid cursor lies *)











(** Without that hypothesis the value can reach far past the restart
    array: on [block_wrapping_value] the lengths 1 and 2^32 - 1 pass the
    length check, the key byte is read inside the buffer, and [SeekToLast]
    lands on an entry whose value is 2^32 - 1 bytes long. *)
Example SeekToLast_wrapped_value :
  exists it',
    Iter.SeekToLast (fresh bytewise_compare block_wrapping_value 7 1) = Some it'
    /\ Iter.Valid it' = true
    /\ Iter.value_ it' = SliceAt 8 4294967295
    /\ Iter.NextEntryOffset it' = Some 7
    /\ ~ lengths_fit block_wrapping_value 7.
Proof.
  eexists. split; [reflexivity|]. split; [reflexivity|].
  split; [reflexivity|]. split; [reflexivity|].
  intros (_ & Hfit).
  specialize (Hfit 0 (mkDecoded 7 0 1 4294967295) ltac:(lia) eq_refl).
  cbn [non_shared value_length] in Hfit. lia.
Qed.
